(** * webp-convert: a shallow embedding of [convert_webp.py]

    The development follows the source top to bottom: the helpers of the
    Python runtime the script relies on (text, [float], [pathlib]), the
    [WebPConverter] class with its counters, the argument parser and [main].
    Effects are explicit: a method that touches [self] takes and returns the
    converter record, printed lines and library calls are collected in an
    event list, and whatever the operating system or the image library
    answers is read from a [world] record the theorems quantify over. *)

From Stdlib Require Import ZArith QArith Qround Qabs String Ascii List Bool Lia Lqa.
From Stdlib Require Import DecimalString Sorting Permutation OrderedTypeEx RelationClasses.
Import ListNotations.

Local Open Scope string_scope.
Local Open Scope Z_scope.

(** ** Results of fallible calls *)

(** A call either returns or raises an error of class [Exception]; the
    payload of [Raise] is [str(e)], the only part of the error the script
    ever looks at. *)
Inductive result (A : Type) : Type :=
| Ok (a : A)
| Raise (e : string).
Arguments Ok {A} a.
Arguments Raise {A} e.

(** ** Text *)

Module Text.

(** [str(n)] for an integer. *)
Definition str_int (n : Z) : string :=
  match n with
  | Zneg p => "-" ++ NilZero.string_of_uint (Pos.to_uint p)
  | _ => NilZero.string_of_uint (N.to_uint (Z.to_N n))
  end.

(** [s * n] for a string. *)
Fixpoint repeat_str (s : string) (n : nat) : string :=
  match n with
  | O => ""
  | S n' => s ++ repeat_str s n'
  end.

(** [s.rjust(width, '0')]. *)
Definition zero_pad (width : nat) (s : string) : string :=
  repeat_str "0" (width - String.length s) ++ s.

(** Nearest integer, ties to the even neighbour. *)
Definition round_half_even (x : Q) : Z :=
  let f := Qfloor x in
  match Qcompare (x - inject_Z f) (1 # 2) with
  | Lt => f
  | Gt => f + 1
  | Eq => if Z.even f then f else f + 1
  end.

(** [f"{x:.{prec}f}"]: the exact value of [x] rounded to [prec] decimals,
    ties to even, sign first. *)
Definition format_float (prec : nat) (x : Q) : string :=
  let scale := 10 ^ Z.of_nat prec in
  let m := round_half_even (Qabs x * inject_Z scale) in
  let sign := if Qlt_le_dec x 0 then "-" else "" in
  let whole := str_int (m / scale) in
  match prec with
  | O => sign ++ whole
  | _ => sign ++ whole ++ "." ++ zero_pad prec (str_int (m mod scale))
  end.

(** [c.lower()] on one ASCII letter; other bytes are left alone. *)
Definition lower_ascii (c : ascii) : ascii :=
  let n := nat_of_ascii c in
  if ((65 <=? n) && (n <=? 90))%nat then ascii_of_nat (n + 32) else c.

(** [s.lower()]. File names are held as UTF-8 bytes: a non-ASCII letter
    keeps its bytes, and none lowers to a letter of a supported suffix. *)
Fixpoint lower (s : string) : string :=
  match s with
  | EmptyString => EmptyString
  | String c s' => String (lower_ascii c) (lower s')
  end.

(** [s.rfind('.')], as [None] for [-1]. *)
Fixpoint rfind_dot (s : string) : option nat :=
  match s with
  | EmptyString => None
  | String c s' =>
      match rfind_dot s' with
      | Some i => Some (S i)
      | None => if Ascii.eqb c "." then Some O else None
      end
  end.

(** [s in l] for a list of strings. *)
Definition mem (s : string) (l : list string) : bool :=
  existsb (String.eqb s) l.

End Text.

(** ** Floats *)

Module Float.

(** A finite double is held as the rational it denotes. *)

(** [float(n)] for an integer: the nearest double, ties to the even
    53-bit significand, [OverflowError] past the largest finite double. *)
Definition round_to_53 (n : Z) : Z :=
  let e := Z.log2 n + 1 - 53 in
  if e <=? 0 then n
  else
    let q := Z.shiftr n e in
    let r := Z.land n (Z.ones e) in
    let half := Z.shiftl 1 (e - 1) in
    let q' := if (half <? r) || ((r =? half) && Z.odd q) then q + 1 else q in
    Z.shiftl q' e.

Definition float_of_int (n : Z) : result Q :=
  let m := round_to_53 (Z.abs n) in
  if 2 ^ 1024 <=? m then Raise "int too large to convert to float"
  else Ok (inject_Z (Z.sgn n * m)).

(** Integers below this bound are the ones [float] accepts. *)
Definition max_int : Z := 2 ^ 1024 - 2 ^ 970.

End Float.

(** ** Paths ([pathlib]) *)

Module Path.

(** A path is the list of its components; the command line is taken after
    [Path(...)] has split it. *)
Definition t : Type := list string.

Definition name (p : t) : string := last p "".

(** [PurePath.suffix]: the part of the name from its last dot on, unless
    that dot opens or closes the name. *)
Definition suffix (p : t) : string :=
  let n := name p in
  match Text.rfind_dot n with
  | Some i =>
      if ((0 <? i) && (i <? String.length n - 1))%nat
      then substring i (String.length n - i) n
      else ""
  | None => ""
  end.

(** [PurePath.stem]: the name without its suffix. *)
Definition stem (p : t) : string :=
  let n := name p in
  match Text.rfind_dot n with
  | Some i =>
      if ((0 <? i) && (i <? String.length n - 1))%nat
      then substring 0 i n
      else n
  | None => n
  end.

Definition parent (p : t) : t := removelast p.

(** [p / s] for a one-component [s]. *)
Definition div (p : t) (s : string) : t := (p ++ [s])%list.

Definition str (p : t) : string :=
  match p with
  | [] => "."
  | _ => String.concat "/" p
  end.

(** The order of paths: component lists compared as Python compares lists,
    each component as Python compares strings. *)
Fixpoint compare (p q : t) : comparison :=
  match p, q with
  | [], [] => Eq
  | [], _ :: _ => Lt
  | _ :: _, [] => Gt
  | a :: p', b :: q' =>
      match String.compare a b with
      | Eq => compare p' q'
      | c => c
      end
  end.

(** [p < q]. *)
Definition ltb (p q : t) : bool :=
  match compare p q with
  | Lt => true
  | _ => false
  end.

(** [p <= q]. *)
Definition le (p q : t) : Prop := compare p q <> Gt.

End Path.

(** [sorted(l)] for a list of paths: a stable sort that only asks [<]. *)
Fixpoint insert_sorted (x : Path.t) (l : list Path.t) : list Path.t :=
  match l with
  | [] => [x]
  | y :: l' => if Path.ltb x y then x :: l else y :: insert_sorted x l'
  end.

Definition sorted (l : list Path.t) : list Path.t :=
  fold_left (fun acc x => insert_sorted x acc) l [].

(** ** The file system *)

(** What a directory holds: regular files (or links to them), directories,
    and everything [is_file] and [glob] see as neither. *)
#[warning="-register-all"]
Inductive node : Type :=
| File
| Dir (entries : list (string * node))
| Other.

Fixpoint assoc (c : string) (es : list (string * node)) : option node :=
  match es with
  | [] => None
  | (c', n) :: es' => if String.eqb c c' then Some n else assoc c es'
  end.

(** The node a path leads to from the root [n]. *)
Fixpoint lookup (n : node) (p : Path.t) : option node :=
  match p with
  | [] => Some n
  | c :: p' =>
      match n with
      | Dir es =>
          match assoc c es with
          | Some n' => lookup n' p'
          | None => None
          end
      | _ => None
      end
  end.

Definition exists_ (fs : node) (p : Path.t) : bool :=
  match lookup fs p with
  | Some _ => true
  | None => false
  end.

Definition is_file (fs : node) (p : Path.t) : bool :=
  match lookup fs p with
  | Some File => true
  | _ => false
  end.

Definition is_dir (fs : node) (p : Path.t) : bool :=
  match lookup fs p with
  | Some (Dir _) => true
  | _ => false
  end.

(** Every path strictly below [p], where [n] is the node at [p]. *)
Fixpoint walk (n : node) (p : Path.t) : list Path.t :=
  match n with
  | Dir es =>
      flat_map (fun '(c, n') => Path.div p c :: walk n' (Path.div p c)) es
  | _ => []
  end.

(** [directory.glob(pattern)] for the two patterns the script uses. *)
Definition glob (fs : node) (directory : Path.t) (pattern : string) : list Path.t :=
  match lookup fs directory with
  | Some (Dir es) =>
      if String.eqb pattern "**/*" then walk (Dir es) directory
      else map (fun '(c, _) => Path.div directory c) es
  | _ => []
  end.

(** ** Images (Pillow) *)

(** An image is the library calls that made it; the script never looks at
    pixels, only at [mode] and [size]. *)
Inductive image : Type :=
| Decoded (mode : string) (size : Z * Z)
| New (mode : string) (size : Z * Z) (color : Z * Z * Z)
| Paste (background im mask : image)
| Band (im : image) (index : nat)
| Convert (im : image) (mode : string).

(** Pillow's band names per mode. *)
Definition getbands (m : string) : list string :=
  if String.eqb m "RGB" then ["R"; "G"; "B"]
  else if String.eqb m "RGBA" then ["R"; "G"; "B"; "A"]
  else if String.eqb m "RGBa" then ["R"; "G"; "B"; "a"]
  else if String.eqb m "RGBX" then ["R"; "G"; "B"; "X"]
  else if String.eqb m "CMYK" then ["C"; "M"; "Y"; "K"]
  else if String.eqb m "YCbCr" then ["Y"; "Cb"; "Cr"]
  else if String.eqb m "LAB" then ["L"; "A"; "B"]
  else if String.eqb m "HSV" then ["H"; "S"; "V"]
  else if String.eqb m "LA" then ["L"; "A"]
  else if String.eqb m "La" then ["L"; "a"]
  else if String.eqb m "PA" then ["P"; "A"]
  else [m].

(** The modes whose last band is an alpha channel, plain or premultiplied. *)
Definition alpha_modes : list string := ["LA"; "La"; "PA"; "RGBA"; "RGBa"].

Fixpoint mode (im : image) : string :=
  match im with
  | Decoded m _ => m
  | New m _ _ => m
  | Paste background _ _ => mode background
  | Band _ _ => "L"
  | Convert _ m => m
  end.

Fixpoint size (im : image) : Z * Z :=
  match im with
  | Decoded _ sz => sz
  | New _ sz _ => sz
  | Paste background _ _ => size background
  | Band im' _ => size im'
  | Convert im' _ => size im'
  end.

Definition has_alpha (im : image) : bool := Text.mem (mode im) alpha_modes.

(** [im.split()]. *)
Definition split (im : image) : list image :=
  map (Band im) (seq 0 (List.length (getbands (mode im)))).

(** The keyword arguments of [img.save]; the [lossless] key may be absent. *)
Record save_kwargs : Type := {
  kw_format : string;
  kw_quality : Z;
  kw_method : Z;
  kw_optimize : bool;
  kw_lossless : option bool
}.

(** ** Effects *)

(** What a run does that can be observed from outside: lines on standard
    output and calls into the operating system and the image library.
    [Enter] marks an entry into [convert_to_webp]. *)
Inductive event : Type :=
| Print (line : string)
| Enter (input_path : Path.t)
| Mkdir (folder : Path.t)
| Open (input_path : Path.t)
| Save (im : image) (output_path : Path.t) (kw : save_kwargs).

(** What the clock, the operating system and the image library answer
    during one conversion. Times are in seconds. [normalize_r] is the answer
    of the calls of the colour step ([Image.new], [split], [paste],
    [convert]); it is only read when that step calls the library. *)
Record run : Type := {
  start_time : Q;
  mkdir_r : result unit;
  open_r : result image;
  normalize_r : result unit;
  save_r : image -> Path.t -> save_kwargs -> result unit;
  end_time : Q;
  stat_input : result Z;
  stat_output : result Z
}.

Record world : Type := {
  fs : node;
  run_of : Path.t -> run;
  verify_r : Path.t -> result unit
}.

(** A computation that leaves events behind and returns or raises. *)
Definition io (A : Type) : Type := list event * result A.

Definition ret {A : Type} (a : A) : io A := ([], Ok a).

Definition bind {A B : Type} (m : io A) (k : A -> io B) : io B :=
  match m with
  | (ev, Ok a) => let '(ev', r) := k a in ((ev ++ ev')%list, r)
  | (ev, Raise e) => (ev, Raise e)
  end.

Definition emit (e : event) : io unit := ([e], Ok tt).

Definition lift {A : Type} (r : result A) : io A := ([], r).

Definition print (line : string) : io unit := emit (Print line).

Notation "x <- m ;; k" := (bind m (fun x => k))
  (at level 100, m at next level, right associativity).
Notation "m ;;; k" := (bind m (fun _ => k))
  (at level 100, right associativity).

(** ** [WebPConverter] *)

Definition SUPPORTED_EXTENSIONS : list string :=
  [".jpg"; ".jpeg"; ".png"; ".bmp"; ".tiff"; ".tif"; ".gif"].

Record WebPConverter : Type := {
  converted_count : Z;
  failed_count : Z
}.

Definition __init__ : WebPConverter :=
  {| converted_count := 0; failed_count := 0 |}.

(** The local [units] of [format_size]. *)
Definition units : list string := ["B"; "KB"; "MB"; "GB"; "TB"].

(** The [while] loop of [format_size]; it runs at most [len(units) - 1]
    times, which is the fuel [format_size] gives it. *)
Fixpoint format_size_loop (fuel : nat) (size : Q) (unit_index : nat) : Q * nat :=
  match fuel with
  | O => (size, unit_index)
  | S fuel' =>
      if Qle_bool 1024 size && (unit_index <? List.length units - 1)%nat
      then format_size_loop fuel' (size / 1024) (S unit_index)
      else (size, unit_index)
  end.

Definition format_size (size_bytes : Z) : result string :=
  match Float.float_of_int size_bytes with
  | Raise e => Raise e
  | Ok size =>
      let '(size, unit_index) := format_size_loop (List.length units) size 0 in
      match nth_error units unit_index with
      | Some u => Ok (Text.format_float 1 size ++ " " ++ u)
      | None => Raise "list index out of range"
      end
  end.

(** [is_valid_image]: whatever [Image.open] or [verify] raises is turned
    into [False]. *)
Definition is_valid_image (w : world) (file_path : Path.t) : bool :=
  match verify_r w file_path with
  | Ok _ => true
  | Raise _ => false
  end.

(** The ratio and the time are printed from their exact values; the
    rounding of the float operations that produce them is left out. *)
Definition _print_conversion_result
    (input_path output_path : Path.t) (original_size compressed_size : Z)
    (compression_ratio time_taken : Q) : io unit :=
  print ("Converted: " ++ Path.name input_path) ;;;
  print ("  Output: " ++ Path.name output_path) ;;;
  original <- lift (format_size original_size) ;;
  print ("  Original: " ++ original) ;;;
  compressed <- lift (format_size compressed_size) ;;
  print ("  Compressed: " ++ compressed) ;;;
  print ("  Compression: " ++ Text.format_float 1 compression_ratio ++ "%") ;;;
  print ("  Time taken: " ++ Text.format_float 2 time_taken ++ "s") ;;;
  print "".

(** The colour step of [convert_to_webp] (the [if]/[elif] on [img.mode]). *)
Definition normalize (img : image) : image :=
  if Text.mem (mode img) ["RGBA"; "LA"] then
    let background := New "RGB" (size img) (255, 255, 255) in
    if String.eqb (mode img) "RGBA"
    then Paste background img (last (split img) img)
    else Paste background img (last (split img) img)
  else if negb (Text.mem (mode img) ["RGB"; "L"]) then Convert img "RGB"
  else img.

(** The body of the [try] block of [convert_to_webp]. *)
Definition convert_steps
    (r : run) (input_path : Path.t) (output_path : option Path.t)
    (quality : Z) (lossless : bool) (method : Z)
    (output_folder : option Path.t) : io (string * Q) :=
  output_path <-
    match output_path with
    | Some p => ret p
    | None =>
        match output_folder with
        | Some folder =>
            emit (Mkdir folder) ;;;
            lift (mkdir_r r) ;;;
            ret (Path.div folder (Path.stem input_path ++ ".webp"))
        | None =>
            ret (Path.div (Path.parent input_path) (Path.stem input_path ++ ".webp"))
        end
    end ;;
  emit (Open input_path) ;;;
  img <- lift (open_r r) ;;
  (if Text.mem (mode img) ["RGB"; "L"] then ret tt else lift (normalize_r r)) ;;;
  let img := normalize img in
  let save_kwargs :=
    {| kw_format := "WEBP";
       kw_quality := quality;
       kw_method := method;
       kw_optimize := true;
       kw_lossless := if lossless then Some true else None |} in
  emit (Save img output_path save_kwargs) ;;;
  lift (save_r r img output_path save_kwargs) ;;;
  let time_taken := (end_time r - start_time r)%Q in
  original_size <- lift (stat_input r) ;;
  compressed_size <- lift (stat_output r) ;;
  compression_ratio <-
    (if original_size =? 0 then lift (Raise "division by zero")
     else ret ((1 - inject_Z compressed_size / inject_Z original_size) * 100)%Q) ;;
  _print_conversion_result input_path output_path original_size
    compressed_size compression_ratio time_taken ;;;
  ret (Path.str output_path, time_taken).

Definition convert_to_webp
    (w : world) (self : WebPConverter) (input_path : Path.t)
    (output_path : option Path.t) (quality : Z) (lossless : bool)
    (method : Z) (output_folder : option Path.t)
    : WebPConverter * list event * (option string * Q) :=
  match
    emit (Enter input_path) ;;;
    convert_steps (run_of w input_path) input_path output_path quality
      lossless method output_folder
  with
  | (ev, Ok (out, time_taken)) =>
      ({| converted_count := converted_count self + 1;
          failed_count := failed_count self |},
       ev, (Some out, time_taken))
  | (ev, Raise e) =>
      ({| converted_count := converted_count self;
          failed_count := failed_count self + 1 |},
       (ev ++ [Print ("Error converting " ++ Path.str input_path ++ ": " ++ e)])%list,
       (None, 0%Q))
  end.

Definition _find_image_files
    (w : world) (directory : Path.t) (recursive : bool) : list Path.t :=
  let pattern := if recursive then "**/*" else "*" in
  sorted
    (filter
       (fun file_path =>
          is_file (fs w) file_path &&
          Text.mem (Text.lower (Path.suffix file_path)) SUPPORTED_EXTENSIONS)
       (glob (fs w) directory pattern)).

(** The [for] loop of [batch_convert]. *)
Fixpoint batch_loop
    (w : world) (self : WebPConverter) (image_files : list Path.t)
    (quality : Z) (lossless : bool) (method : Z)
    (output_folder : option Path.t) (total_time : Q)
    : WebPConverter * list event * Q :=
  match image_files with
  | [] => (self, [], total_time)
  | img_file :: rest =>
      if String.eqb (Text.lower (Path.suffix img_file)) ".webp" then
        let '(self', ev, total) :=
          batch_loop w self rest quality lossless method output_folder total_time in
        (self',
         Print ("Skipping " ++ Path.name img_file ++ " (already WebP)") :: ev,
         total)
      else
        let '(self1, ev1, (_, time_taken)) :=
          convert_to_webp w self img_file None quality lossless method output_folder in
        let '(self2, ev2, total) :=
          batch_loop w self1 rest quality lossless method output_folder
            (total_time + time_taken)%Q in
        (self2, (ev1 ++ ev2)%list, total)
  end.

Definition batch_convert
    (w : world) (self : WebPConverter) (directory : Path.t)
    (quality : Z) (lossless : bool) (method : Z) (recursive : bool)
    (output_folder : option Path.t)
    : WebPConverter * list event * result (Z * Q) :=
  if negb (exists_ (fs w) directory) then
    (self, [], Raise ("Directory does not exist: " ++ Path.str directory))
  else
    let image_files := _find_image_files w directory recursive in
    match image_files with
    | [] => (self, [Print "No supported image files found."], Ok (0, 0%Q))
    | _ :: _ =>
        let '(self', ev, total_time) :=
          batch_loop w self image_files quality lossless method output_folder 0%Q in
        (self',
         ([Print ("Found " ++ Text.str_int (Z.of_nat (List.length image_files))
                   ++ " image(s) to convert...");
           Print (Text.repeat_str "=" 60)] ++ ev)%list,
         Ok (converted_count self', total_time))
    end.

(** ** The command line *)

(** The command line as [argparse] sees it once [type=int] has read the
    numbers; an absent option is [None]. *)
Record argv : Type := {
  arg_input : Path.t;
  arg_output : option Path.t;
  arg_quality : option Z;
  arg_lossless : bool;
  arg_method : option Z;
  arg_recursive : bool;
  arg_verbose : bool;
  arg_output_folder : option Path.t
}.

Record namespace : Type := {
  ns_input : Path.t;
  ns_output : option Path.t;
  ns_quality : Z;
  ns_lossless : bool;
  ns_method : Z;
  ns_recursive : bool;
  ns_verbose : bool;
  ns_output_folder : option Path.t
}.

(** [v in range(lo, hi)]. *)
Definition in_range (lo hi v : Z) : bool := (lo <=? v) && (v <? hi).

(** [create_argument_parser().parse_args()]: a value outside its [choices]
    ends the process with status 2 ([None] here); nothing is adjusted. *)
Definition parse_args (a : argv) : option namespace :=
  let quality := match arg_quality a with Some q => q | None => 80 end in
  let method := match arg_method a with Some m => m | None => 4 end in
  let quality_ok :=
    match arg_quality a with Some q => in_range 1 101 q | None => true end in
  let method_ok :=
    match arg_method a with Some m => in_range 0 7 m | None => true end in
  if quality_ok && method_ok then
    Some {| ns_input := arg_input a;
            ns_output := arg_output a;
            ns_quality := quality;
            ns_lossless := arg_lossless a;
            ns_method := method;
            ns_recursive := arg_recursive a;
            ns_verbose := arg_verbose a;
            ns_output_folder := arg_output_folder a |}
  else None.

Definition str_bool (b : bool) : string := if b then "True" else "False".

(** What is left of a run of [main]: the exit status, the events, and the
    converter if one was constructed. *)
Record finished : Type := {
  exit_code : Z;
  events : list event;
  converter : option WebPConverter
}.

(** The two lines [main] prints first. *)
Definition banner : list event :=
  [Print "WebP Image Converter - Python Version"; Print (Text.repeat_str "=" 50)].

(** The lines of the [if verbose:] block. *)
Definition verbose_lines (args : namespace) : list event :=
  if ns_verbose args then
    ([Print ("Input: " ++ Path.str (ns_input args));
      Print ("Quality: " ++ Text.str_int (ns_quality args) ++ "%");
      Print ("Lossless: " ++ str_bool (ns_lossless args));
      Print ("Method: " ++ Text.str_int (ns_method args));
      Print ("Recursive: " ++ str_bool (ns_recursive args))] ++
     match ns_output_folder args with
     | Some folder => [Print ("Output folder: " ++ Path.str folder)]
     | None => []
     end ++
     [Print (Text.repeat_str "=" 50)])%list
  else [].

(** The warning of the directory branch when [-o] was given. *)
Definition output_warning (output_path : option Path.t) : list event :=
  match output_path with
  | Some _ =>
      [Print "Warning: Output path is ignored when processing directories"; Print ""]
  | None => []
  end.

(** The summary [main] prints after a batch. *)
Definition summary_lines (success_count : Z) (total_time : Q) (failed : Z) : list event :=
  ([Print (Text.repeat_str "=" 60);
    Print ("Summary: " ++ Text.str_int success_count ++ " images converted successfully");
    Print ("Total time: " ++ Text.format_float 2 total_time ++ "s")] ++
   (if 0 <? success_count then
      [Print ("Average time per image: "
              ++ Text.format_float 2 (total_time / inject_Z success_count)%Q ++ "s")]
    else []) ++
   (if 0 <? failed then [Print ("Failed conversions: " ++ Text.str_int failed)]
    else []))%list.

Definition main (w : world) (a : argv) : finished :=
  match parse_args a with
  | None => {| exit_code := 2; events := banner; converter := None |}
  | Some args =>
      let input_path := ns_input args in
      let output_path := ns_output args in
      let output_folder := ns_output_folder args in
      let quality := ns_quality args in
      let lossless := ns_lossless args in
      let method := ns_method args in
      let recursive := ns_recursive args in
      if negb (exists_ (fs w) input_path) then
        {| exit_code := 1;
           events :=
             (banner ++
              [Print ("Error: Input path does not exist: " ++ Path.str input_path)])%list;
           converter := None |}
      else
        let shown := verbose_lines args in
        let self := __init__ in
        if is_file (fs w) input_path then
          if negb (is_valid_image w input_path) then
            {| exit_code := 1;
               events :=
                 (banner ++ shown ++
                  [Print ("Error: Invalid or unsupported image file: "
                          ++ Path.str input_path)])%list;
               converter := Some self |}
          else
            let '(self', ev, (result, time_taken)) :=
              convert_to_webp w self input_path output_path quality lossless
                method output_folder in
            let truthy :=
              match result with
              | Some s => negb (String.eqb s "")
              | None => false
              end in
            if truthy then
              {| exit_code := 0;
                 events :=
                   (banner ++ shown ++ ev ++
                    [Print ("Conversion completed successfully in "
                            ++ Text.format_float 2 time_taken ++ "s!")])%list;
                 converter := Some self' |}
            else
              {| exit_code := 1;
                 events := (banner ++ shown ++ ev ++ [Print "Conversion failed!"])%list;
                 converter := Some self' |}
        else if is_dir (fs w) input_path then
          match
            batch_convert w self input_path quality lossless method recursive
              output_folder
          with
          | (self', ev, Ok (success_count, total_time)) =>
              {| exit_code := 0;
                 events :=
                   (banner ++ shown ++ output_warning output_path ++ ev ++
                    summary_lines success_count total_time (failed_count self'))%list;
                 converter := Some self' |}
          | (self', ev, Raise e) =>
              {| exit_code := 1;
                 events :=
                   (banner ++ shown ++ output_warning output_path ++ ev ++
                    [Print ("Unexpected error: " ++ e)])%list;
                 converter := Some self' |}
          end
        else
          {| exit_code := 1;
             events :=
               (banner ++ shown ++
                [Print ("Error: Input is neither a file nor directory: "
                        ++ Path.str input_path)])%list;
             converter := Some self |}
  end.

(** ** Vocabulary of the statements *)

(** [1024 ** k], the divisor after [k] turns of the loop of [format_size]. *)
Definition pow1024 (k : nat) : Q := inject_Z (1024 ^ Z.of_nat k).

(** The paths the discoverer looks at: the direct children of [directory],
    or everything below it. *)
Definition in_scope (recursive : bool) (directory p : Path.t) : Prop :=
  if recursive then exists rel : Path.t, rel <> [] /\ p = (directory ++ rel)%list
  else exists c : string, p = (directory ++ [c])%list.

(** The extension of [p], lowered, is one of the seven supported ones. *)
Definition supported (p : Path.t) : Prop :=
  In (Text.lower (Path.suffix p)) SUPPORTED_EXTENSIONS.

Fixpoint distinct (l : list string) : bool :=
  match l with
  | [] => true
  | x :: l' => negb (Text.mem x l') && distinct l'
  end.

(** No directory lists a name twice. *)
Fixpoint well_formed (n : node) : bool :=
  match n with
  | Dir es => distinct (map fst es) && forallb (fun e => well_formed (snd e)) es
  | _ => true
  end.


(** The lines a trace prints, the files it hands to [convert_to_webp], and
    the settings of its [save] calls. *)
Fixpoint printed (ev : list event) : list string :=
  match ev with
  | [] => []
  | Print line :: ev' => line :: printed ev'
  | _ :: ev' => printed ev'
  end.

Fixpoint entered (ev : list event) : list Path.t :=
  match ev with
  | [] => []
  | Enter p :: ev' => p :: entered ev'
  | _ :: ev' => entered ev'
  end.

Fixpoint saved (ev : list event) : list save_kwargs :=
  match ev with
  | [] => []
  | Save _ _ kw :: ev' => kw :: saved ev'
  | _ :: ev' => saved ev'
  end.

Definition error_line (input_path : Path.t) (e : string) : string :=
  "Error converting " ++ Path.str input_path ++ ": " ++ e.

Definition skip_notice (name : string) : string :=
  "Skipping " ++ name ++ " (already WebP)".

(** Every event of a computation satisfies [P]. *)
Definition trace_all {A : Type} (P : event -> Prop) (m : io A) : Prop :=
  Forall P (fst m).

(** Step 1 of the pipeline: the explicit path, else [<stem>.webp] in the
    output folder, else [<stem>.webp] next to the input. *)
Definition resolved_output_path
    (input_path : Path.t) (output_path output_folder : option Path.t) : Path.t :=
  match output_path, output_folder with
  | Some p, _ => p
  | None, Some folder => Path.div folder (Path.stem input_path ++ ".webp")
  | None, None => Path.div (Path.parent input_path) (Path.stem input_path ++ ".webp")
  end.

Definition requested_kwargs (quality : Z) (lossless : bool) (method : Z) : save_kwargs :=
  {| kw_format := "WEBP";
     kw_quality := quality;
     kw_method := method;
     kw_optimize := true;
     kw_lossless := if lossless then Some true else None |}.

(** The output folder, when one has to be made, is made. *)
Definition resolves (r : run) (output_path output_folder : option Path.t) : Prop :=
  output_path <> None \/ output_folder = None \/ mkdir_r r = Ok tt.

(** The colour step goes through: it has nothing to do, or its calls return. *)
Definition normalizes (r : run) (img : image) : Prop :=
  Text.mem (mode img) ["RGB"; "L"] = true \/ normalize_r r = Ok tt.



(** The batch loop leaves out the files whose lowered extension is .webp. *)
Definition is_webp (p : Path.t) : bool :=
  String.eqb (Text.lower (Path.suffix p)) ".webp".

(** The conversion of [p] in a batch goes through. *)
Definition converts
    (w : world) (quality : Z) (lossless : bool) (method : Z)
    (output_folder : option Path.t) (p : Path.t) : bool :=
  match snd (convert_steps (run_of w p) p None quality lossless method output_folder) with
  | Ok _ => true
  | Raise _ => false
  end.

(** The wall-clock time between the two readings taken while converting [p]. *)
Definition elapsed (w : world) (p : Path.t) : Q :=
  (end_time (run_of w p) - start_time (run_of w p))%Q.

Definition sum_Q (l : list Q) : Q := fold_right Qplus 0%Q l.

(** What the pipeline may leave in a trace: report and error lines, never a
    skip notice, and [save] calls with the settings it was given. *)
Definition pipeline_event (quality : Z) (lossless : bool) (method : Z) (e : event) : Prop :=
  match e with
  | Print line => forall name : string, line <> skip_notice name
  | Save _ _ kw => kw = requested_kwargs quality lossless method
  | _ => True
  end.

(** A stretch of trace that only prints. *)
Definition only_prints (ev : list event) : Prop :=
  Forall (fun e => match e with Print _ => True | _ => False end) ev.



(** Alpha compositing as the pipeline does it: the image pasted on a white
    RGB canvas of its size through its last band. *)
Definition composited_over_white (img out : image) : Prop :=
  out = Paste (New "RGB" (size img) (255, 255, 255)) img
          (Band img (List.length (getbands (mode img)) - 1)).

(** The folders a trace makes, and its calls of the encoder: the image, the
    target and the settings of each [save]. *)
Fixpoint made (ev : list event) : list Path.t :=
  match ev with
  | [] => []
  | Mkdir folder :: ev' => folder :: made ev'
  | _ :: ev' => made ev'
  end.

Fixpoint encoded (ev : list event) : list (image * Path.t * save_kwargs) :=
  match ev with
  | [] => []
  | Save im out kw :: ev' => (im, out, kw) :: encoded ev'
  | _ :: ev' => encoded ev'
  end.

(** What step 1 of the pipeline leaves in the trace: the output folder is
    made when no explicit path is given and a folder is. *)
Definition resolution_events (output_path output_folder : option Path.t) : list event :=
  match output_path, output_folder with
  | None, Some folder => [Mkdir folder]
  | _, _ => []
  end.

(** Steps 1 to 3 go through and leave [img] to be normalised and encoded. *)
Definition reaches_encoder
    (r : run) (output_path output_folder : option Path.t) (img : image) : Prop :=
  resolves r output_path output_folder /\ open_r r = Ok img /\ normalizes r img.

(** The report of a conversion, as [_print_conversion_result] lays it out. *)
Definition report_lines
    (input_path output_path : Path.t) (original compressed : string)
    (compression_ratio time_taken : Q) : list string :=
  ["Converted: " ++ Path.name input_path;
   "  Output: " ++ Path.name output_path;
   "  Original: " ++ original;
   "  Compressed: " ++ compressed;
   "  Compression: " ++ Text.format_float 1 compression_ratio ++ "%";
   "  Time taken: " ++ Text.format_float 2 time_taken ++ "s";
   ""].


(** [1024 ** k] as an integer. *)
Definition pow1024_Z (k : nat) : Z := 1024 ^ Z.of_nat k.

(** The target of an encoder call of a batch: [<stem>.webp] of a discovered
    file, in the output folder or beside that file. *)
Definition batch_target_ok
    (found : list Path.t) (output_folder : option Path.t)
    (call : image * Path.t * save_kwargs) : Prop :=
  exists p : Path.t,
    In p found /\
    Path.parent (snd (fst call)) =
      match output_folder with
      | Some folder => folder
      | None => Path.parent p
      end /\
    Path.name (snd (fst call)) = Path.stem p ++ ".webp" /\
    Path.suffix (snd (fst call)) = ".webp".






(** ** A sample world *)

Module Sample.

(** A conversion where every call answers: a 4x4 RGBA source of 2048 bytes
    encoded into 1024 bytes in a second and a quarter. *)
Definition good_run : run :=
  {| start_time := 10;
     mkdir_r := Ok tt;
     open_r := Ok (Decoded "RGBA" (4, 4));
     normalize_r := Ok tt;
     save_r := fun _ _ _ => Ok tt;
     end_time := 45 # 4;
     stat_input := Ok 2048;
     stat_output := Ok 1024 |}.

(** A conversion whose source cannot be decoded, three seconds in. *)
Definition corrupt_run : run :=
  {| start_time := 10;
     mkdir_r := Ok tt;
     open_r := Raise "cannot identify image file";
     normalize_r := Ok tt;
     save_r := fun _ _ _ => Ok tt;
     end_time := 13;
     stat_input := Ok 2048;
     stat_output := Ok 1024 |}.

Definition tree : node :=
  Dir [("pics",
        Dir [("a.JPG", File); ("b.png", File); ("c.webp", File); ("d.gif", File);
             ("x.bmp", File); ("notes.txt", File); (".jpg", File);
             ("sub", Dir [("e.tif", File); ("f.webp", File)])]);
       ("empty", Dir [])].

(** Every file decodes but [x.bmp]. *)
Definition w : world :=
  {| fs := tree;
     run_of := fun p => if String.eqb (Path.name p) "x.bmp" then corrupt_run else good_run;
     verify_r := fun p =>
       if String.eqb (Path.name p) "x.bmp" then Raise "cannot identify image file"
       else Ok tt |}.



Definition argv_quality_500 : argv :=
  {| arg_input := ["pics"];
     arg_output := None;
     arg_quality := Some 500;
     arg_lossless := false;
     arg_method := None;
     arg_recursive := false;
     arg_verbose := false;
     arg_output_folder := None |}.



(** An empty source that decodes all the same, as a truncated file may:
    its size is 0. *)
Definition empty_source_run : run :=
  {| start_time := 10;
     mkdir_r := Ok tt;
     open_r := Ok (Decoded "L" (1, 1));
     normalize_r := Ok tt;
     save_r := fun _ _ _ => Ok tt;
     end_time := 11;
     stat_input := Ok 0;
     stat_output := Ok 26 |}.

Definition w_empty_source : world :=
  {| fs := tree; run_of := fun _ => empty_source_run; verify_r := fun _ => Ok tt |}.

(** The output folder cannot be made. *)
Definition read_only_run : run :=
  {| start_time := 10;
     mkdir_r := Raise "Permission denied";
     open_r := Ok (Decoded "RGB" (4, 4));
     normalize_r := Ok tt;
     save_r := fun _ _ _ => Ok tt;
     end_time := 11;
     stat_input := Ok 2048;
     stat_output := Ok 1024 |}.

Definition w_read_only : world :=
  {| fs := tree; run_of := fun _ => read_only_run; verify_r := fun _ => Ok tt |}.


Definition argv_pics_output : argv :=
  {| arg_input := ["pics"];
     arg_output := Some ["out.webp"];
     arg_quality := None;
     arg_lossless := false;
     arg_method := None;
     arg_recursive := true;
     arg_verbose := false;
     arg_output_folder := None |}.


End Sample.

(** ** Induction on directory trees *)

Section node_induction.
Variable P : node -> Prop.
Hypothesis P_File : P File.
Hypothesis P_Other : P Other.
Hypothesis P_Dir : forall es, Forall (fun e => P (snd e)) es -> P (Dir es).

Fixpoint node_ind' (n : node) : P n :=
  match n with
  | File => P_File
  | Other => P_Other
  | Dir es =>
      P_Dir es
        ((fix all (l : list (string * node)) : Forall (fun e => P (snd e)) l :=
            match l with
            | [] => Forall_nil _
            | e :: l' => Forall_cons e (node_ind' (snd e)) (all l')
            end) es)
  end.
End node_induction.

(** * Properties *)

(** ** Text and floats *)

Lemma round_to_53_small n : 0 <= n < 2 ^ 53 -> Float.round_to_53 n = n.
Proof.
  intros [H0 H1]. unfold Float.round_to_53.
  destruct (Z.eq_dec n 0) as [->|Hn]; [reflexivity|].
  assert (Z.log2 n < 53) by (apply Z.log2_lt_pow2; lia).
  destruct (Z.leb_spec (Z.log2 n + 1 - 53) 0); [reflexivity | lia].
Qed.

Lemma round_to_53_nonneg n : 0 <= n -> 0 <= Float.round_to_53 n.
Proof.
  intros H0. unfold Float.round_to_53.
  destruct (Z.leb_spec (Z.log2 n + 1 - 53) 0) as [|He]; [exact H0|].
  apply Z.shiftl_nonneg.
  assert (0 <= Z.shiftr n (Z.log2 n + 1 - 53)) by (apply Z.shiftr_nonneg; exact H0).
  destruct (_ || _); lia.
Qed.

Lemma round_to_53_bound n :
  0 <= n < Float.max_int -> Float.round_to_53 n < 2 ^ 1024.
Proof.
  unfold Float.max_int. intros [H0 H1]. unfold Float.round_to_53.
  destruct (Z.leb_spec (Z.log2 n + 1 - 53) 0) as [|He]; [lia|].
  set (e := Z.log2 n + 1 - 53) in *.
  assert (Hn : 0 < n).
  { destruct (Z.eq_dec n 0) as [->|]; [|lia]. cbn in e. lia. }
  assert (Hlog : Z.log2 n < 1024) by (apply Z.log2_lt_pow2; lia).
  destruct (Z.log2_spec n Hn) as [Hlo Hhi].
  rewrite Z.shiftr_div_pow2, Z.land_ones, !Z.shiftl_mul_pow2 by lia.
  rewrite Z.mul_1_l.
  assert (He2 : 0 < 2 ^ e) by (apply Z.pow_pos_nonneg; lia).
  assert (Hsplit : 2 ^ Z.succ (Z.log2 n) = 2 ^ 53 * 2 ^ e).
  { rewrite <- Z.pow_add_r by lia. f_equal. lia. }
  assert (Hhalf : 2 ^ e = 2 * 2 ^ (e - 1)).
  { replace e with (Z.succ (e - 1)) at 1 by lia. apply Z.pow_succ_r. lia. }
  pose proof (Z.div_mod n (2 ^ e) ltac:(lia)) as Hdm.
  pose proof (Z.mod_pos_bound n (2 ^ e) He2) as Hr.
  set (q := n / 2 ^ e) in *. set (r := n mod 2 ^ e) in *.
  assert (Hq : q < 2 ^ 53) by nia.
  assert (Hq0 : 0 <= q) by (apply Z.div_pos; lia).
  destruct (Z.eq_dec e 971) as [E|E].
  - (* the largest binade *)
    rewrite E in *.
    assert (Hp : (2:Z) ^ 1024 = 2 ^ 53 * 2 ^ 971) by (rewrite <- Z.pow_add_r by lia; reflexivity).
    assert (Hp' : (2:Z) ^ 971 = 2 * 2 ^ 970) by (change 971 with (Z.succ 970); apply Z.pow_succ_r; lia).
    change (971 - 1) with 970 in *.
    set (h := 2 ^ 970) in *.
    destruct (Z.ltb_spec h r) as [Hlt|Hge]; cbn [orb].
    + assert (q + 1 < 2 ^ 53) by nia. nia.
    + destruct (Z.eqb_spec r h) as [Heq|Hne]; cbn [andb]; [|nia].
      assert (q + 1 < 2 ^ 53) by nia.
      destruct (Z.odd q); nia.
  - assert (e < 971) by lia.
    assert (Hle : 2 ^ e <= 2 ^ 970) by (apply Z.pow_le_mono_r; lia).
    assert (Hp : (2:Z) ^ 1024 = 2 * (2 ^ 53 * 2 ^ 970)).
    { rewrite <- Z.pow_add_r by lia. change (53 + 970) with 1023.
      change 1024 with (Z.succ 1023). apply Z.pow_succ_r. lia. }
    assert (0 < 2 ^ 53) by lia.
    assert (Hm : (q + 1) * 2 ^ e <= 2 ^ 53 * 2 ^ 970).
    { apply Z.mul_le_mono_nonneg; lia. }
    destruct (_ || _); nia.
Qed.
Lemma pow1024_pos k : (0 < pow1024 k)%Q.
Proof.
  unfold pow1024. change 0%Q with (inject_Z 0). rewrite <- Zlt_Qlt.
  apply Z.pow_pos_nonneg; lia.
Qed.

Lemma pow1024_succ k : (pow1024 (S k) == 1024 * pow1024 k)%Q.
Proof.
  unfold pow1024. rewrite Nat2Z.inj_succ, Z.pow_succ_r by lia.
  rewrite inject_Z_mult. reflexivity.
Qed.

Lemma div_pow1024_succ (x : Q) k : (x / 1024 / pow1024 k == x / pow1024 (S k))%Q.
Proof.
  rewrite pow1024_succ. pose proof (pow1024_pos k) as Hp.
  field. intro H. rewrite H in Hp. discriminate Hp.
Qed.

Lemma format_size_loop_spec fuel : forall (size : Q) (idx : nat),
  (4 - idx <= fuel)%nat -> (idx <= 4)%nat ->
  exists v k,
    format_size_loop fuel size idx = (v, (idx + k)%nat) /\
    (idx + k <= 4)%nat /\
    (v == size / pow1024 k)%Q /\
    (forall j, (j < k)%nat -> (1024 <= size / pow1024 j)%Q) /\
    ((idx + k < 4)%nat -> (v < 1024)%Q).
Proof.
  induction fuel as [|fuel IH]; intros size idx Hfuel Hidx.
  - exists size, 0%nat. cbn [format_size_loop]. rewrite Nat.add_0_r.
    repeat split; try lia.
    unfold pow1024. cbn. field.
  - cbn [format_size_loop]. change (List.length units - 1)%nat with 4%nat.
    destruct (Qle_bool 1024 size) eqn:Hge; cbn [andb].
    + destruct (Nat.ltb_spec idx 4) as [Hlt|Hnlt].
      * destruct (IH (size / 1024)%Q (S idx)) as (v & k & Hrun & Hk & Hv & Hall & Hstop); try lia.
        exists v, (S k). rewrite Hrun. split; [f_equal; lia|].
        split; [lia|]. split; [rewrite Hv; apply div_pow1024_succ|].
        split.
        -- intros [|j] Hj.
           ++ apply Qle_bool_iff in Hge. unfold pow1024. cbn.
              setoid_replace (size / 1)%Q with size by field. exact Hge.
           ++ rewrite <- div_pow1024_succ. apply Hall. lia.
        -- intros H. apply Hstop. lia.
      * exists size, 0%nat. rewrite Nat.add_0_r. repeat split; try lia.
        unfold pow1024; cbn; field.
    + exists size, 0%nat. rewrite Nat.add_0_r. repeat split; try lia.
      * unfold pow1024; cbn; field.
      * intros _. apply Qnot_le_lt. intro H. apply Qle_bool_iff in H. congruence.
Qed.
Lemma round_half_even_close (x : Q) :
  (x - (1 # 2) <= inject_Z (Text.round_half_even x) <= x + (1 # 2))%Q.
Proof.
  unfold Text.round_half_even.
  pose proof (Qfloor_le x) as Hlo. pose proof (Qlt_floor x) as Hhi.
  rewrite inject_Z_plus in Hhi. change (inject_Z 1) with 1%Q in Hhi.
  set (f := inject_Z (Qfloor x)) in *.
  destruct (Qcompare_spec (x - f) (1 # 2)) as [He|Hl|Hg].
  - destruct (Z.even (Qfloor x)).
    + fold f. split; lra.
    + rewrite inject_Z_plus. fold f. change (inject_Z 1) with 1%Q. split; lra.
  - fold f. split; lra.
  - rewrite inject_Z_plus. fold f. change (inject_Z 1) with 1%Q. split; lra.
Qed.

Lemma round_half_even_nonneg (x : Q) : (0 <= x)%Q -> 0 <= Text.round_half_even x.
Proof.
  intros Hx. unfold Text.round_half_even.
  assert (0 <= Qfloor x).
  { change 0 with (Qfloor (inject_Z 0)) at 1. apply Qfloor_resp_le. exact Hx. }
  destruct (Qcompare _ _); [destruct (Z.even _)| |]; lia.
Qed.

Lemma str_int_digit (d : Z) : 0 <= d <= 9 -> String.length (Text.str_int d) = 1%nat.
Proof.
  intros H.
  assert (d = 0 \/ d = 1 \/ d = 2 \/ d = 3 \/ d = 4 \/ d = 5 \/ d = 6 \/ d = 7 \/ d = 8 \/ d = 9) as C by lia.
  repeat (destruct C as [->|C]; [reflexivity|]). subst d. reflexivity.
Qed.

Lemma format_float_1_nonneg (v : Q) :
  (0 <= v)%Q ->
  exists whole frac : Z,
    Text.format_float 1 v = Text.str_int whole ++ "." ++ Text.str_int frac /\
    0 <= whole /\ 0 <= frac <= 9 /\
    String.length (Text.str_int frac) = 1%nat /\
    (v - (1 # 20) <= inject_Z (10 * whole + frac) / 10 <= v + (1 # 20))%Q.
Proof.
  intros Hv. unfold Text.format_float.
  change (10 ^ Z.of_nat 1) with 10.
  set (m := Text.round_half_even (Qabs v * inject_Z 10)).
  assert (Hm : 0 <= m).
  { apply round_half_even_nonneg. rewrite Qabs_pos by exact Hv.
    apply Qmult_le_0_compat; [exact Hv | discriminate]. }
  pose proof (Z.mod_pos_bound m 10 ltac:(lia)) as Hfrac.
  exists (m / 10), (m mod 10).
  assert (Hlen : String.length (Text.str_int (m mod 10)) = 1%nat)
    by (apply str_int_digit; lia).
  split.
  - destruct (Qlt_le_dec v 0) as [Hneg|_].
    + exfalso. apply (Qlt_not_le _ _ Hneg Hv).
    + unfold Text.zero_pad. rewrite Hlen. reflexivity.
  - split; [apply Z.div_pos; lia|]. split; [lia|]. split; [exact Hlen|].
    rewrite <- Z.div_mod by lia.
    pose proof (round_half_even_close (Qabs v * inject_Z 10)) as Hc. fold m in Hc.
    rewrite Qabs_pos in Hc by exact Hv.
    change (inject_Z 10) with 10%Q in Hc.
    split.
    + apply Qle_shift_div_l; [reflexivity|]. lra.
    + apply Qle_shift_div_r; [reflexivity|]. lra.
Qed.

Lemma append_assoc (a b c : string) : (a ++ b) ++ c = a ++ (b ++ c).
Proof. induction a as [|ch a IH]; cbn; [reflexivity | now rewrite IH]. Qed.

Lemma float_of_int_ok (n : Z) :
  0 <= n < Float.max_int ->
  exists x : Q,
    Float.float_of_int n = Ok x /\ (0 <= x)%Q /\ (n < 2 ^ 53 -> x = inject_Z n).
Proof.
  intros Hn. unfold Float.float_of_int.
  rewrite Z.abs_eq by lia.
  pose proof (round_to_53_bound n Hn) as Hb.
  pose proof (round_to_53_nonneg n ltac:(lia)) as Hp.
  destruct (Z.leb_spec (2 ^ 1024) (Float.round_to_53 n)) as [Hle|_]; [lia|].
  eexists. split; [reflexivity|]. split.
  - change 0%Q with (inject_Z 0). rewrite <- Zle_Qle.
    apply Z.mul_nonneg_nonneg; [apply Z.sgn_nonneg|]; lia.
  - intros Hs. rewrite round_to_53_small by lia. f_equal.
    destruct (Z.eq_dec n 0) as [->|]; [reflexivity|].
    rewrite Z.sgn_pos by lia. lia.
Qed.

(** C5. For every non-negative byte count that [float] accepts,
    [format_size] divides by 1024 as long as the value is at least 1024 and
    the unit index is below the last one of B, KB, MB, GB, TB ([k] counts the
    divisions), and renders the scaled value [v], rounded to the nearest
    tenth, as its whole part, a dot, exactly one digit, a space and the unit
    of index [k]. In particular 0 gives "0.0 B", 1536 gives "1.5 KB" and
    1048576 gives "1.0 MB". *)
Theorem format_size_spec :
  (forall n : Z,
      0 <= n < Float.max_int ->
      exists (x v : Q) (k : nat) (u : string) (whole frac : Z),
        Float.float_of_int n = Ok x /\
        (n < 2 ^ 53 -> x = inject_Z n) /\
        (forall j, (j < k)%nat -> (1024 <= x / pow1024 j)%Q) /\
        (v == x / pow1024 k)%Q /\
        ((k < List.length units - 1)%nat -> (v < 1024)%Q) /\
        nth_error units k = Some u /\
        format_size n =
          Ok (Text.str_int whole ++ "." ++ Text.str_int frac ++ " " ++ u) /\
        0 <= whole /\ 0 <= frac <= 9 /\
        String.length (Text.str_int frac) = 1%nat /\
        (v - (1 # 20) <= inject_Z (10 * whole + frac) / 10 <= v + (1 # 20))%Q) /\
  format_size 0 = Ok "0.0 B" /\
  format_size 1536 = Ok "1.5 KB" /\
  format_size 1048576 = Ok "1.0 MB".
Proof.
  split; [|repeat split; vm_compute; reflexivity].
  intros n Hn.
  destruct (float_of_int_ok n Hn) as (x & Hx & Hx0 & Hexact).
  destruct (format_size_loop_spec (List.length units) x 0) as (v & k & Hrun & Hk & Hv & Hall & Hstop);
    [cbn; lia | lia |].
  cbn [Nat.add] in Hrun, Hk, Hstop.
  assert (Hv0 : (0 <= v)%Q).
  { rewrite Hv. apply Qle_shift_div_l; [apply pow1024_pos|]. lra. }
  destruct (format_float_1_nonneg v Hv0) as (whole & frac & Hfmt & Hw & Hf & Hlen & Hnear).
  destruct (nth_error units k) as [u|] eqn:Hu.
  2:{ apply nth_error_None in Hu. cbn in Hu. lia. }
  exists x, v, k, u, whole, frac.
  repeat split; try assumption; try lia; try apply Hnear.
  unfold format_size. rewrite Hx, Hrun, Hu, Hfmt.
  rewrite append_assoc. reflexivity.
Qed.

Lemma format_size_spec_witness :
  exists (x v : Q) (k : nat) (u : string) (whole frac : Z),
    Float.float_of_int 1536 = Ok x /\
    (1536 < 2 ^ 53 -> x = inject_Z 1536) /\
    (forall j, (j < k)%nat -> (1024 <= x / pow1024 j)%Q) /\
    (v == x / pow1024 k)%Q /\
    ((k < List.length units - 1)%nat -> (v < 1024)%Q) /\
    nth_error units k = Some u /\
    format_size 1536 =
      Ok (Text.str_int whole ++ "." ++ Text.str_int frac ++ " " ++ u) /\
    0 <= whole /\ 0 <= frac <= 9 /\
    String.length (Text.str_int frac) = 1%nat /\
    (v - (1 # 20) <= inject_Z (10 * whole + frac) / 10 <= v + (1 # 20))%Q.
Proof.
  apply (proj1 format_size_spec 1536). unfold Float.max_int. lia.
Defined.

(** Ties go to the even tenth, the last unit absorbs what is left, counts
    past 2^53 are rounded by [float] first, and [Float.max_int] is the first
    count [float] refuses. *)
Example format_size_examples :
  format_size 1023 = Ok "1023.0 B" /\
  format_size 1280 = Ok "1.2 KB" /\
  format_size 1792 = Ok "1.8 KB" /\
  format_size (2 ^ 60) = Ok "1048576.0 TB" /\
  format_size (2 ^ 53 + 1) = Ok "8192.0 TB" /\
  (exists s, format_size (Float.max_int - 1) = Ok s) /\
  format_size Float.max_int = Raise "int too large to convert to float".
Proof.
  repeat split; try (vm_compute; reflexivity).
  eexists. vm_compute. reflexivity.
Qed.

(** ** Sorting paths *)

Lemma compare_antisym (p : Path.t) : forall q, Path.compare p q = CompOpp (Path.compare q p).
Proof.
  induction p as [|a p IH]; intros [|b q]; cbn; try reflexivity.
  rewrite (String.compare_antisym b a).
  destruct (String.compare a b); cbn; auto.
Qed.



Lemma insert_sorted_In (x y : Path.t) (l : list Path.t) :
  In y (insert_sorted x l) <-> y = x \/ In y l.
Proof.
  induction l as [|z l IH]; cbn.
  - intuition congruence.
  - destruct (Path.ltb x z); cbn; rewrite ?IH; intuition congruence.
Qed.


Lemma fold_insert_In (l acc : list Path.t) (y : Path.t) :
  In y (fold_left (fun a x => insert_sorted x a) l acc) <-> In y l \/ In y acc.
Proof.
  revert acc. induction l as [|x l IH]; intros acc; cbn.
  - tauto.
  - rewrite IH, insert_sorted_In. intuition congruence.
Qed.


Lemma sorted_In (l : list Path.t) (y : Path.t) : In y (sorted l) <-> In y l.
Proof. unfold sorted. rewrite fold_insert_In. cbn. tauto. Qed.



Lemma path_compare_eq (p : Path.t) : forall q, Path.compare p q = Eq -> p = q.
Proof.
  induction p as [|a p IH]; intros [|b q]; cbn; try discriminate; [reflexivity|].
  destruct (String.compare a b) eqn:Hab; try discriminate.
  intros H. apply String.compare_eq_iff in Hab. f_equal; [exact Hab | now apply IH].
Qed.

Lemma path_compare_refl (p : Path.t) : Path.compare p p = Eq.
Proof.
  induction p as [|a p IH]; cbn; [reflexivity|].
  assert (H : String.compare a a = Eq) by now apply String_as_OT.cmp_eq.
  now rewrite H.
Qed.



Lemma path_le_antisym (p q : Path.t) : Path.le p q -> Path.le q p -> p = q.
Proof.
  unfold Path.le. rewrite (compare_antisym q p).
  destruct (Path.compare p q) eqn:H; cbn; try congruence.
  intros _ _. now apply path_compare_eq.
Qed.


(** ** The file system *)
Lemma assoc_In (c : string) (es : list (string * node)) :
  (exists n, In (c, n) es) <-> assoc c es <> None.
Proof.
  induction es as [|[c' n'] es IH]; cbn.
  - split; [intros [n []] | congruence].
  - destruct (String.eqb_spec c c') as [->|Hne].
    + split; [congruence | intros _; exists n'; now left].
    + rewrite <- IH. split; intros [n H]; exists n.
      * destruct H as [H|H]; [congruence | exact H].
      * now right.
Qed.

Lemma mem_In (s : string) (l : list string) : Text.mem s l = true <-> In s l.
Proof.
  unfold Text.mem. rewrite existsb_exists. split.
  - intros (x & Hin & Heq). apply String.eqb_eq in Heq. now subst.
  - intros Hin. exists s. split; [exact Hin | apply String.eqb_refl].
Qed.

Lemma distinct_NoDup (l : list string) : distinct l = true <-> NoDup l.
Proof.
  induction l as [|x l IH]; cbn.
  - split; [constructor | reflexivity].
  - rewrite andb_true_iff, negb_true_iff, IH, NoDup_cons_iff.
    rewrite <- not_true_iff_false, mem_In. tauto.
Qed.

Lemma assoc_In_distinct c n es :
  NoDup (map fst es) -> In (c, n) es -> assoc c es = Some n.
Proof.
  induction es as [|[c' n'] es IH]; cbn; intros Hnd Hin; [contradiction|].
  apply NoDup_cons_iff in Hnd. destruct Hnd as [Hnotin Hnd].
  destruct Hin as [[= -> ->]|Hin].
  - now rewrite String.eqb_refl.
  - destruct (String.eqb_spec c c') as [->|_].
    + exfalso. apply Hnotin. apply (in_map fst) in Hin. exact Hin.
    + now apply IH.
Qed.

Lemma lookup_app (p q : Path.t) : forall n,
  lookup n (p ++ q)%list = match lookup n p with Some n' => lookup n' q | None => None end.
Proof.
  induction p as [|c p IH]; intros n; cbn; [reflexivity|].
  destruct n as [|es|]; try reflexivity.
  destruct (assoc c es); [apply IH | reflexivity].
Qed.

Lemma assoc_Some_In c es n : assoc c es = Some n -> In (c, n) es.
Proof.
  induction es as [|[c' n'] es IH]; cbn; [discriminate|].
  destruct (String.eqb_spec c c') as [->|Hne].
  - intros [= ->]. now left.
  - intros H. right. now apply IH.
Qed.

Lemma well_formed_Dir es :
  well_formed (Dir es) = true ->
  NoDup (map fst es) /\ Forall (fun e => well_formed (snd e) = true) es.
Proof.
  cbn. rewrite andb_true_iff, distinct_NoDup, forallb_forall, Forall_forall. tauto.
Qed.

Lemma walk_In (n : node) : forall (d p : Path.t),
  well_formed n = true ->
  (In p (walk n d) <->
   exists rel : Path.t, rel <> [] /\ p = (d ++ rel)%list /\ lookup n rel <> None).
Proof.
  induction n as [| |es IH] using node_ind'; intros d p Hwf.
  - cbn. split; [intros [] | intros ([|c rel] & Hne & _ & Hl); [congruence | cbn in Hl; congruence]].
  - cbn. split; [intros [] | intros ([|c rel] & Hne & _ & Hl); [congruence | cbn in Hl; congruence]].
  - apply well_formed_Dir in Hwf. destruct Hwf as [Hnd Hall].
    cbn [walk]. rewrite in_flat_map. split.
    + intros ([c n'] & Hin & Hp).
      pose proof (assoc_In_distinct c n' es Hnd Hin) as Ha.
      destruct Hp as [Hp|Hp].
      * exists [c]. split; [discriminate|]. split; [now rewrite <- Hp|].
        cbn. rewrite Ha. discriminate.
      * rewrite Forall_forall in IH, Hall.
        apply (IH (c, n') Hin) in Hp; [|exact (Hall (c, n') Hin)].
        destruct Hp as (rel & Hne & -> & Hl).
        exists (c :: rel). split; [discriminate|]. split.
        -- unfold Path.div. now rewrite <- app_assoc.
        -- cbn. now rewrite Ha.
    + intros ([|c rel] & Hne & -> & Hl); [congruence|].
      cbn in Hl. destruct (assoc c es) as [n'|] eqn:Ha; [|congruence].
      apply assoc_Some_In in Ha. exists (c, n'). split; [exact Ha|].
      destruct rel as [|c' rel].
      * now left.
      * right. rewrite Forall_forall in IH, Hall.
        apply (IH (c, n') Ha); [exact (Hall (c, n') Ha)|].
        exists (c' :: rel). split; [discriminate|]. split; [|exact Hl].
        unfold Path.div. now rewrite <- app_assoc.
Qed.

Lemma lookup_well_formed (p : Path.t) : forall n n',
  well_formed n = true -> lookup n p = Some n' -> well_formed n' = true.
Proof.
  induction p as [|c p IH]; intros n n' Hwf; cbn.
  - now intros [= <-].
  - destruct n as [|es|]; try discriminate.
    destruct (assoc c es) as [m|] eqn:Ha; [|discriminate].
    apply IH. apply well_formed_Dir in Hwf. destruct Hwf as [_ Hall].
    rewrite Forall_forall in Hall. exact (Hall (c, m) (assoc_Some_In _ _ _ Ha)).
Qed.

Lemma glob_In (root : node) (directory p : Path.t) (recursive : bool) :
  well_formed root = true ->
  (In p (glob root directory (if recursive then "**/*" else "*")) <->
   is_dir root directory = true /\ in_scope recursive directory p /\
   exists_ root p = true).
Proof.
  intros Hwf. unfold glob, is_dir, exists_, in_scope.
  destruct (lookup root directory) as [[|es|]|] eqn:Hd;
    try (split; [intros [] | intros [? _]; discriminate]).
  pose proof (lookup_well_formed _ _ _ Hwf Hd) as Hwfd.
  destruct recursive.
  - change (String.eqb "**/*" "**/*") with true. cbn match.
    rewrite (walk_In (Dir es) directory p Hwfd). split.
    + intros (rel & Hne & -> & Hl). split; [reflexivity|]. split; [now exists rel|].
      rewrite lookup_app, Hd. destruct (lookup (Dir es) rel); congruence.
    + intros (_ & (rel & Hne & ->) & Hl). exists rel. split; [exact Hne|]. split; [reflexivity|].
      rewrite lookup_app, Hd in Hl. destruct (lookup (Dir es) rel); congruence.
  - change (String.eqb "*" "**/*") with false. cbn match.
    rewrite in_map_iff. split.
    + intros ([c n] & <- & Hin). split; [reflexivity|]. split; [now exists c|].
      unfold Path.div. rewrite lookup_app, Hd. cbn.
      apply well_formed_Dir in Hwfd. destruct Hwfd as [Hnd _].
      now rewrite (assoc_In_distinct c n es Hnd Hin).
    + intros (_ & (c & ->) & Hl). rewrite lookup_app, Hd in Hl. cbn in Hl.
      destruct (assoc c es) as [n|] eqn:Ha; [|discriminate].
      exists (c, n). split; [reflexivity | now apply assoc_Some_In].
Qed.







(** Upper-case extensions match, nested files are found only recursively,
    and [.webp], [.txt] and a bare [.jpg] are left out. *)
Example find_image_files_pics :
  _find_image_files Sample.w ["pics"] false =
    [["pics"; "a.JPG"]; ["pics"; "b.png"]; ["pics"; "d.gif"]; ["pics"; "x.bmp"]] /\
  _find_image_files Sample.w ["pics"] true =
    [["pics"; "a.JPG"]; ["pics"; "b.png"]; ["pics"; "d.gif"]; ["pics"; "sub"; "e.tif"];
     ["pics"; "x.bmp"]] /\
  _find_image_files Sample.w ["empty"] true = [].
Proof. repeat split; vm_compute; reflexivity. Qed.

(** ** Traces *)

Lemma trace_all_bind {A B : Type} (P : event -> Prop) (m : io A) (k : A -> io B) :
  trace_all P m -> (forall a, trace_all P (k a)) -> trace_all P (bind m k).
Proof.
  unfold trace_all. destruct m as [ev [a|e]]; cbn; intros Hm Hk; [|exact Hm].
  specialize (Hk a). destruct (k a) as [ev' r]. cbn in *.
  apply Forall_app. now split.
Qed.

Lemma trace_all_emit (P : event -> Prop) (e : event) : P e -> trace_all P (emit e).
Proof. intros H. unfold trace_all. cbn. now constructor. Qed.

Lemma trace_all_lift {A : Type} (P : event -> Prop) (r : result A) : trace_all P (lift r).
Proof. constructor. Qed.

Lemma trace_all_ret {A : Type} (P : event -> Prop) (a : A) : trace_all P (ret a).
Proof. constructor. Qed.

Ltac trace_step :=
  match goal with
  | |- trace_all _ (bind _ _) => apply trace_all_bind; [|intros ?]
  | |- trace_all _ (emit _) => apply trace_all_emit
  | |- trace_all _ (print _) => apply trace_all_emit
  | |- trace_all _ (lift _) => apply trace_all_lift
  | |- trace_all _ (ret _) => apply trace_all_ret
  | |- trace_all _ (match ?x with _ => _ end) => destruct x
  | |- trace_all _ (if ?x then _ else _) => destruct x
  end.

Lemma printed_app (ev1 ev2 : list event) : printed (ev1 ++ ev2) = (printed ev1 ++ printed ev2)%list.
Proof. induction ev1 as [|[] ev1 IH]; cbn; congruence. Qed.

Lemma entered_app (ev1 ev2 : list event) : entered (ev1 ++ ev2) = (entered ev1 ++ entered ev2)%list.
Proof. induction ev1 as [|[] ev1 IH]; cbn; congruence. Qed.

Lemma saved_app (ev1 ev2 : list event) : saved (ev1 ++ ev2) = (saved ev1 ++ saved ev2)%list.
Proof. induction ev1 as [|[] ev1 IH]; cbn; congruence. Qed.

(** No call is entered from inside the [try] block. *)
Lemma convert_steps_no_Enter r input_path output_path quality lossless method output_folder :
  trace_all (fun e => match e with Enter _ => False | _ => True end)
    (convert_steps r input_path output_path quality lossless method output_folder).
Proof.
  unfold convert_steps, _print_conversion_result.
  repeat trace_step; exact I.
Qed.

(** The [try] block prints report lines only and saves with the settings
    of the call. *)
Lemma convert_steps_trace r input_path output_path quality lossless method output_folder :
  trace_all (pipeline_event quality lossless method)
    (convert_steps r input_path output_path quality lossless method output_folder).
Proof.
  unfold convert_steps, _print_conversion_result.
  repeat trace_step; try exact I; try reflexivity;
    intros name; unfold skip_notice; cbn; congruence.
Qed.

(** ** [convert_to_webp] *)

Lemma convert_to_webp_cases w self input_path output_path quality lossless method output_folder :
  (exists ev out t,
      convert_steps (run_of w input_path) input_path output_path quality lossless
        method output_folder = (ev, Ok (out, t)) /\
      convert_to_webp w self input_path output_path quality lossless method output_folder =
        ({| converted_count := converted_count self + 1;
            failed_count := failed_count self |},
         Enter input_path :: ev, (Some out, t))) \/
  (exists ev e,
      convert_steps (run_of w input_path) input_path output_path quality lossless
        method output_folder = (ev, Raise e) /\
      convert_to_webp w self input_path output_path quality lossless method output_folder =
        ({| converted_count := converted_count self;
            failed_count := failed_count self + 1 |},
         (Enter input_path :: ev ++ [Print (error_line input_path e)])%list,
         (None, 0%Q))).
Proof.
  unfold convert_to_webp.
  destruct (convert_steps _ _ _ _ _ _ _) as [ev [[out t]|e]] eqn:Hsteps; cbn.
  - left. now exists ev, out, t.
  - right. now exists ev, e.
Qed.



Lemma bind_Ok_inv {A B : Type} (m : io A) (k : A -> io B) ev b :
  bind m k = (ev, Ok b) ->
  exists ev1 a ev2, m = (ev1, Ok a) /\ k a = (ev2, Ok b) /\ ev = (ev1 ++ ev2)%list.
Proof.
  destruct m as [ev1 [a|e]]; cbn; [|discriminate].
  destruct (k a) as [ev2 r] eqn:Hk. intros [= <- ->].
  now exists ev1, a, ev2.
Qed.

Lemma convert_steps_Ok_inv r input_path output_path quality lossless method output_folder ev out t :
  convert_steps r input_path output_path quality lossless method output_folder =
    (ev, Ok (out, t)) ->
  out = Path.str (resolved_output_path input_path output_path output_folder) /\
  t = (end_time r - start_time r)%Q.
Proof.
  unfold convert_steps. intros H.
  apply bind_Ok_inv in H. destruct H as (ev1 & p & ev2 & Hp & H & _).
  assert (Hres : p = resolved_output_path input_path output_path output_folder).
  { destruct output_path as [p'|]; [unfold ret in Hp; cbn; congruence|].
    destruct output_folder as [folder|]; [|unfold ret in Hp; cbn; congruence].
    apply bind_Ok_inv in Hp. destruct Hp as (? & ? & ? & _ & Hp & _).
    apply bind_Ok_inv in Hp. destruct Hp as (? & ? & ? & _ & Hp & _).
    unfold ret in Hp. cbn. congruence. }
  subst p.
  repeat (apply bind_Ok_inv in H; destruct H as (? & ? & ? & _ & H & _)).
  unfold ret in H. injection H as _ <- <-. now split.
Qed.



Lemma no_Enter_entered {A : Type} (m : io A) :
  trace_all (fun e => match e with Enter _ => False | _ => True end) m ->
  entered (fst m) = [].
Proof.
  unfold trace_all. induction (fst m) as [|e ev IH]; intros H; [reflexivity|].
  apply Forall_cons_iff in H. destruct H as [He H].
  destruct e; cbn; try (now apply IH). contradiction.
Qed.

Lemma convert_to_webp_entered w self input_path output_path quality lossless method output_folder :
  entered (snd (fst (convert_to_webp w self input_path output_path quality lossless
                       method output_folder))) = [input_path].
Proof.
  pose proof (no_Enter_entered _ (convert_steps_no_Enter (run_of w input_path) input_path
    output_path quality lossless method output_folder)) as Hno.
  destruct (convert_to_webp_cases w self input_path output_path quality lossless method
    output_folder) as [(ev & out & t & Hs & ->)|(ev & e & Hs & ->)];
    rewrite Hs in Hno; cbn in Hno |- *.
  - now rewrite Hno.
  - now rewrite entered_app, Hno.
Qed.



Lemma convert_to_webp_trace w self input_path output_path quality lossless method output_folder :
  Forall (pipeline_event quality lossless method)
    (snd (fst (convert_to_webp w self input_path output_path quality lossless
                 method output_folder))).
Proof.
  pose proof (convert_steps_trace (run_of w input_path) input_path
    output_path quality lossless method output_folder) as Htr. unfold trace_all in Htr.
  destruct (convert_to_webp_cases w self input_path output_path quality lossless method
    output_folder) as [(ev & out & t & Hs & ->)|(ev & e & Hs & ->)];
    rewrite Hs in Htr; cbn in Htr |- *.
  - constructor; [exact I | exact Htr].
  - constructor; [exact I|]. apply Forall_app. split; [exact Htr|].
    constructor; [|constructor]. intros name. unfold error_line, skip_notice. cbn. congruence.
Qed.

Lemma converts_cases w self p quality lossless method output_folder :
  exists ev out,
    convert_to_webp w self p None quality lossless method output_folder =
      (if converts w quality lossless method output_folder p
       then ({| converted_count := converted_count self + 1;
                failed_count := failed_count self |},
             ev, (Some out, elapsed w p))
       else ({| converted_count := converted_count self;
                failed_count := failed_count self + 1 |},
             ev, (None, 0%Q))).
Proof.
  unfold converts.
  destruct (convert_to_webp_cases w self p None quality lossless method
    output_folder) as [(ev & out & t & Hs & ->)|(ev & e & Hs & ->)]; rewrite Hs; cbn.
  - apply convert_steps_Ok_inv in Hs. destruct Hs as [_ ->]. now eexists _, _.
  - eexists _, "". reflexivity.
Qed.

Lemma batch_loop_spec w quality lossless method output_folder :
  forall (files : list Path.t) (self : WebPConverter) (total : Q),
    let todo := filter (fun p => negb (is_webp p)) files in
    let good := filter (converts w quality lossless method output_folder) todo in
    let bad := filter (fun p => negb (converts w quality lossless method output_folder p)) todo in
    exists self' ev total',
      batch_loop w self files quality lossless method output_folder total =
        (self', ev, total') /\
      entered ev = todo /\
      converted_count self' = converted_count self + Z.of_nat (List.length good) /\
      failed_count self' = failed_count self + Z.of_nat (List.length bad) /\
      (total' == total + sum_Q (map (elapsed w) good))%Q /\
      (Forall (fun p => is_webp p = false) files ->
       Forall (pipeline_event quality lossless method) ev).
Proof.
  induction files as [|p files IH]; intros self total; cbn zeta.
  - exists self, [], total. cbn. repeat split; try lia; [unfold sum_Q; cbn; lra | constructor].
  - cbn [batch_loop filter]. fold (is_webp p).
    destruct (is_webp p) eqn:Hw; cbn [negb].
    + destruct (IH self total) as (self' & ev & total' & -> & He & Hc & Hf & Ht & Htr).
      eexists _, _, _. split; [reflexivity|]. cbn [entered].
      repeat split; try assumption.
      intros Hall. apply Forall_cons_iff in Hall. destruct Hall as [Hp _]. congruence.
    + pose proof (convert_to_webp_entered w self p None quality lossless method output_folder) as Hent.
      pose proof (convert_to_webp_trace w self p None quality lossless method output_folder) as Htrp.
      destruct (converts_cases w self p quality lossless method output_folder) as (ev1 & out & Hcv).
      rewrite Hcv in Hent, Htrp |- *. cbn [filter].
      destruct (converts w quality lossless method output_folder p) eqn:Hgood; cbn [negb];
        cbn [fst snd] in Hent, Htrp.
      * destruct (IH {| converted_count := converted_count self + 1;
                        failed_count := failed_count self |} (total + elapsed w p)%Q)
          as (self' & ev & total' & -> & He & Hc & Hf & Ht & Htr).
        eexists _, _, _. split; [reflexivity|].
        rewrite entered_app, Hent, He. cbn [converted_count failed_count] in Hc, Hf.
        split; [reflexivity|]. split; [cbn [List.length]; lia|]. split; [exact Hf|].
        split; [rewrite Ht; unfold sum_Q; cbn [map fold_right]; lra|].
        intros Hall. apply Forall_cons_iff in Hall. apply Forall_app. split; [exact Htrp|tauto].
      * destruct (IH {| converted_count := converted_count self;
                        failed_count := failed_count self + 1 |} (total + 0)%Q)
          as (self' & ev & total' & -> & He & Hc & Hf & Ht & Htr).
        eexists _, _, _. split; [reflexivity|].
        rewrite entered_app, Hent, He. cbn [converted_count failed_count] in Hc, Hf.
        split; [reflexivity|]. split; [exact Hc|]. split; [cbn [List.length]; lia|].
        split; [rewrite Ht; lra|].
        intros Hall. apply Forall_cons_iff in Hall. apply Forall_app. split; [exact Htrp|tauto].
Qed.

(** ** [batch_convert] *)

Lemma supported_not_webp (p : Path.t) : supported p -> is_webp p = false.
Proof.
  unfold supported, is_webp, SUPPORTED_EXTENSIONS. cbn [In].
  intros H. repeat (destruct H as [<-|H]; [reflexivity|]). contradiction.
Qed.

Lemma found_supported w directory recursive :
  Forall supported (_find_image_files w directory recursive).
Proof.
  apply Forall_forall. intros p Hin. unfold _find_image_files in Hin.
  apply sorted_In, filter_In in Hin. destruct Hin as [_ Hin].
  apply andb_true_iff in Hin. now apply mem_In.
Qed.

Lemma found_not_webp w directory recursive :
  Forall (fun p => is_webp p = false) (_find_image_files w directory recursive).
Proof.
  eapply Forall_impl; [|apply found_supported]. apply supported_not_webp.
Qed.

Lemma not_webp_filter (files : list Path.t) :
  Forall (fun p => is_webp p = false) files ->
  filter (fun p => negb (is_webp p)) files = files.
Proof.
  induction 1 as [|p files Hp _ IH]; cbn; [reflexivity|]. now rewrite Hp, IH.
Qed.

Lemma missing_directory_empty w directory recursive :
  exists_ (fs w) directory = false -> _find_image_files w directory recursive = [].
Proof.
  unfold exists_, _find_image_files, glob.
  destruct (lookup (fs w) directory); [discriminate | reflexivity].
Qed.

Lemma batch_convert_cases w self directory quality lossless method recursive output_folder :
  let found := _find_image_files w directory recursive in
  let good := filter (converts w quality lossless method output_folder) found in
  let bad := filter (fun p => negb (converts w quality lossless method output_folder p)) found in
  (exists e,
      found = [] /\
      batch_convert w self directory quality lossless method recursive output_folder =
        (self, [], Raise e)) \/
  (found = [] /\
   batch_convert w self directory quality lossless method recursive output_folder =
     (self, [Print "No supported image files found."], Ok (0, 0%Q))) \/
  (exists self' ev total,
      found <> [] /\
      batch_convert w self directory quality lossless method recursive output_folder =
        (self', ev, Ok (converted_count self', total)) /\
      entered ev = found /\
      converted_count self' = converted_count self + Z.of_nat (List.length good) /\
      failed_count self' = failed_count self + Z.of_nat (List.length bad) /\
      (total == sum_Q (map (elapsed w) good))%Q /\
      Forall (pipeline_event quality lossless method) ev).
Proof.
  intros found good bad. unfold batch_convert. fold found.
  destruct (exists_ (fs w) directory) eqn:Hex; cbn [negb].
  2:{ left. eexists. split; [|reflexivity]. now apply missing_directory_empty. }
  right. destruct found as [|p0 files] eqn:Hfound; [now left|]. right.
  pose proof (found_not_webp w directory recursive) as Hnw. fold found in Hnw.
  rewrite Hfound in Hnw.
  destruct (batch_loop_spec w quality lossless method output_folder (p0 :: files) self 0%Q)
    as (self' & ev & total & Hrun & He & Hc & Hf & Ht & Htr).
  rewrite (not_webp_filter _ Hnw) in He, Hc, Hf, Ht.
  rewrite Hrun. eexists _, _, _. split; [discriminate|]. split; [reflexivity|].
  split; [exact He|]. split; [exact Hc|]. split; [exact Hf|]. split; [rewrite Ht; apply Qplus_0_l|].
  apply Forall_app. split; [|now apply Htr].
  constructor; [|constructor; [|constructor]]; intros name; unfold skip_notice; cbn; congruence.
Qed.

Lemma pipeline_event_no_skip quality lossless method (ev : list event) (name : string) :
  Forall (pipeline_event quality lossless method) ev ->
  ~ In (skip_notice name) (printed ev).
Proof.
  induction 1 as [|e ev He _ IH]; cbn; [tauto|].
  destruct e; cbn; try exact IH. intros [Heq|Hin]; [|now apply IH].
  exact (He name Heq).
Qed.

Lemma pipeline_event_saved quality lossless method (ev : list event) :
  Forall (pipeline_event quality lossless method) ev ->
  Forall (fun kw => kw = requested_kwargs quality lossless method) (saved ev).
Proof.
  induction 1 as [|e ev He _ IH]; cbn; [constructor|].
  destruct e; cbn; try exact IH. constructor; [exact He | exact IH].
Qed.

(** C2, amended. In a batch run every discovered file is passed to the
    conversion pipeline, in the order of discovery; no discovered file has
    the extension .webp, since the discoverer only returns the seven
    supported extensions; hence no .webp file reaches the pipeline and no
    skip notice is ever printed. *)
Theorem batch_convert_passes_every_file
    (w : world) (self : WebPConverter) (directory : Path.t) (quality : Z)
    (lossless : bool) (method : Z) (recursive : bool) (output_folder : option Path.t) :
  exists (self' : WebPConverter) (ev : list event) (res : result (Z * Q)),
    batch_convert w self directory quality lossless method recursive output_folder =
      (self', ev, res) /\
    entered ev = _find_image_files w directory recursive /\
    Forall (fun p => is_webp p = false) (_find_image_files w directory recursive) /\
    forall name : string, ~ In (skip_notice name) (printed ev).
Proof.
  pose proof (found_not_webp w directory recursive) as Hnw.
  destruct (batch_convert_cases w self directory quality lossless method recursive
    output_folder) as [(e & Hf & ->)|[(Hf & ->)|(self' & ev & total & _ & -> & He & _ & _ & _ & Htr)]].
  - eexists _, _, _. split; [reflexivity|]. rewrite Hf. cbn. repeat split; auto.
  - eexists _, _, _. split; [reflexivity|]. rewrite Hf. cbn. repeat split; auto.
    intros name [H|[]]. unfold skip_notice in H. cbn in H. congruence.
  - eexists _, _, _. split; [reflexivity|]. repeat split; auto.
    intros name. now apply (pipeline_event_no_skip quality lossless method).
Qed.

Lemma batch_convert_passes_every_file_witness :
  exists (self' : WebPConverter) (ev : list event) (res : result (Z * Q)),
    batch_convert Sample.w __init__ ["pics"] 80 false 4 true None = (self', ev, res) /\
    entered ev = _find_image_files Sample.w ["pics"] true /\
    Forall (fun p => is_webp p = false) (_find_image_files Sample.w ["pics"] true) /\
    forall name : string, ~ In (skip_notice name) (printed ev).
Proof.
  exact (batch_convert_passes_every_file Sample.w __init__ ["pics"] 80 false 4 true None).
Defined.

Lemma batch_convert_never_skips :
  ~ exists (w : world) (self : WebPConverter) (directory : Path.t) (quality : Z)
      (lossless : bool) (method : Z) (recursive : bool) (output_folder : option Path.t)
      (name : string),
      In (skip_notice name)
        (printed (snd (fst (batch_convert w self directory quality lossless method
                              recursive output_folder)))).
Proof.
  intros (w & self & directory & quality & lossless & method & recursive & output_folder
          & name & Hin).
  destruct (batch_convert_cases w self directory quality lossless method recursive
    output_folder) as [(e & Hf & Hb)|[(Hf & Hb)|(self' & ev & total & _ & Hb & _ & _ & _ & _ & Htr)]];
    rewrite Hb in Hin; cbn [fst snd] in Hin.
  - exact Hin.
  - destruct Hin as [H|[]]. unfold skip_notice in H. cbn in H. congruence.
  - exact (pipeline_event_no_skip _ _ _ _ _ Htr Hin).
Qed.

(** ** [main] *)

Lemma only_prints_entered (ev : list event) : only_prints ev -> entered ev = [].
Proof.
  induction 1 as [|e ev He _ IH]; [reflexivity|]. destruct e; cbn; tauto.
Qed.

Lemma only_prints_saved (ev : list event) : only_prints ev -> saved ev = [].
Proof.
  induction 1 as [|e ev He _ IH]; [reflexivity|]. destruct e; cbn; tauto.
Qed.

Lemma only_prints_app (ev1 ev2 : list event) :
  only_prints ev1 -> only_prints ev2 -> only_prints (ev1 ++ ev2).
Proof. intros H1 H2. apply Forall_app. now split. Qed.

Lemma only_prints_banner : only_prints banner.
Proof. repeat constructor. Qed.

Lemma only_prints_verbose_lines (args : namespace) : only_prints (verbose_lines args).
Proof.
  unfold verbose_lines. destruct (ns_verbose args); [|constructor].
  apply only_prints_app; [repeat constructor|].
  apply only_prints_app; [|repeat constructor].
  destruct (ns_output_folder args); repeat constructor.
Qed.

Lemma only_prints_output_warning (o : option Path.t) : only_prints (output_warning o).
Proof. destruct o; repeat constructor. Qed.

Lemma only_prints_summary_lines (n : Z) (t : Q) (f : Z) : only_prints (summary_lines n t f).
Proof.
  unfold summary_lines.
  apply only_prints_app; [repeat constructor|].
  apply only_prints_app; [destruct (0 <? n) | destruct (0 <? f)]; repeat constructor.
Qed.

Lemma parse_args_range (a : argv) (ns : namespace) :
  parse_args a = Some ns ->
  1 <= ns_quality ns <= 100 /\ 0 <= ns_method ns <= 6 /\
  ns_input ns = arg_input a /\ ns_output ns = arg_output a /\
  ns_lossless ns = arg_lossless a /\ ns_recursive ns = arg_recursive a /\
  ns_output_folder ns = arg_output_folder a /\
  ns_quality ns = match arg_quality a with Some q => q | None => 80 end /\
  ns_method ns = match arg_method a with Some m => m | None => 4 end.
Proof.
  unfold parse_args, in_range.
  destruct (arg_quality a) as [q|], (arg_method a) as [m|]; cbn [andb];
    repeat match goal with
           | |- context [?x <=? ?y] => destruct (Z.leb_spec x y); cbn [andb]
           | |- context [?x <? ?y] => destruct (Z.ltb_spec x y); cbn [andb]
           end;
    intros [= <-]; cbn; repeat split; lia.
Qed.

Lemma parse_args_rejects (a : argv) :
  (forall q, arg_quality a = Some q -> ~ 1 <= q <= 100 -> parse_args a = None) /\
  (forall m, arg_method a = Some m -> ~ 0 <= m <= 6 -> parse_args a = None).
Proof.
  unfold parse_args, in_range. split.
  - intros q -> Hq.
    destruct (Z.leb_spec 1 q); [|reflexivity].
    destruct (Z.ltb_spec q 101); [lia | reflexivity].
  - intros m -> Hm.
    destruct (Z.leb_spec 0 m); [|now rewrite andb_false_r].
    destruct (Z.ltb_spec m 7); [lia | now rewrite andb_false_r].
Qed.

Lemma is_dir_facts (root : node) (p : Path.t) :
  is_dir root p = true -> exists_ root p = true /\ is_file root p = false.
Proof.
  unfold is_dir, exists_, is_file. destruct (lookup root p) as [[| |]|]; now try discriminate.
Qed.

Lemma is_file_facts (root : node) (p : Path.t) :
  is_file root p = true -> exists_ root p = true.
Proof.
  unfold exists_, is_file. destruct (lookup root p) as [[| |]|]; now try discriminate.
Qed.

(** A run of [main] on a directory: the batch, between lines that [main]
    prints itself. *)
Lemma main_directory (w : world) (a : argv) (ns : namespace) :
  parse_args a = Some ns ->
  is_dir (fs w) (ns_input ns) = true ->
  exists self' ev n total,
    batch_convert w __init__ (ns_input ns) (ns_quality ns) (ns_lossless ns)
      (ns_method ns) (ns_recursive ns) (ns_output_folder ns) =
      (self', ev, Ok (n, total)) /\
    main w a =
      {| exit_code := 0;
         events :=
           (banner ++ verbose_lines ns ++ output_warning (ns_output ns) ++ ev ++
            summary_lines n total (failed_count self'))%list;
         converter := Some self' |}.
Proof.
  intros Hparse Hdir. destruct (is_dir_facts _ _ Hdir) as [Hex Hfile].
  unfold main. rewrite Hparse, Hex, Hfile, Hdir. cbn [negb].
  destruct (batch_convert_cases w __init__ (ns_input ns) (ns_quality ns) (ns_lossless ns)
    (ns_method ns) (ns_recursive ns) (ns_output_folder ns))
    as [(e & _ & Hb)|[(_ & Hb)|(self' & ev & total & _ & Hb & _)]].
  - exfalso. unfold batch_convert in Hb. rewrite Hex in Hb. cbn [negb] in Hb.
    destruct (_find_image_files _ _ _); [discriminate|].
    destruct (batch_loop _ _ _ _ _ _ _ _) as [[? ?] ?]. discriminate.
  - rewrite Hb. eexists _, _, _, _. split; reflexivity.
  - rewrite Hb. eexists _, _, _, _. split; reflexivity.
Qed.

Lemma main_directory_traces (w : world) (a : argv) (ns : namespace) self' ev n total :
  main w a =
    {| exit_code := 0;
       events :=
         (banner ++ verbose_lines ns ++ output_warning (ns_output ns) ++ ev ++
          summary_lines n total (failed_count self'))%list;
       converter := Some self' |} ->
  entered (events (main w a)) = entered ev /\
  saved (events (main w a)) = saved ev.
Proof.
  intros ->. cbn [events].
  rewrite !entered_app, !saved_app.
  rewrite (only_prints_entered _ only_prints_banner),
    (only_prints_entered _ (only_prints_verbose_lines ns)),
    (only_prints_entered _ (only_prints_output_warning _)),
    (only_prints_entered _ (only_prints_summary_lines _ _ _)),
    (only_prints_saved _ only_prints_banner),
    (only_prints_saved _ (only_prints_verbose_lines ns)),
    (only_prints_saved _ (only_prints_output_warning _)),
    (only_prints_saved _ (only_prints_summary_lines _ _ _)).
  cbn [app]. now rewrite !app_nil_r.
Qed.

(** ** Colour normalisation *)

Lemma mem_cons (s x : string) (l : list string) :
  Text.mem s (x :: l) = String.eqb s x || Text.mem s l.
Proof. reflexivity. Qed.

Lemma split_last (img : image) :
  last (split img) img = Band img (List.length (getbands (mode img)) - 1).
Proof.
  unfold split.
  assert (Hn : (0 < List.length (getbands (mode img)))%nat).
  { unfold getbands.
    repeat match goal with |- context [if ?b then _ else _] => destruct b end; cbn; lia. }
  destruct (List.length (getbands (mode img))) as [|n]; [lia|].
  rewrite seq_S, map_app. cbn [map]. rewrite last_last. f_equal. lia.
Qed.

Lemma normalize_cases (img : image) :
  (mode img = "RGBA" \/ mode img = "LA") /\ composited_over_white img (normalize img) \/
  (mode img <> "RGBA" /\ mode img <> "LA" /\ mode img <> "RGB" /\ mode img <> "L") /\
    normalize img = Convert img "RGB" \/
  (mode img = "RGB" \/ mode img = "L") /\ normalize img = img.
Proof.
  unfold normalize, composited_over_white. rewrite !mem_cons. cbn [Text.mem existsb].
  rewrite !orb_false_r, split_last.
  destruct (String.eqb_spec (mode img) "RGBA") as [E1|N1]; cbn [orb].
  - left. split; [now left | reflexivity].
  - destruct (String.eqb_spec (mode img) "LA") as [E2|N2]; cbn [orb].
    + left. split; [now right | reflexivity].
    + destruct (String.eqb_spec (mode img) "RGB") as [E3|N3]; cbn [orb negb].
      * right. right. split; [now left | reflexivity].
      * destruct (String.eqb_spec (mode img) "L") as [E4|N4]; cbn [negb].
        -- right. right. split; [now right | reflexivity].
        -- right. left. now repeat split.
Qed.

(** C6, amended. After normalisation the image has mode RGB or L and no
    alpha channel. An image of mode RGBA or LA is composited over an opaque
    white RGB canvas through its alpha band; an image of any other mode that
    is neither RGB nor L, the other alpha-carrying modes included, is
    converted to RGB; an RGB or L image is left as it is. *)
Theorem normalize_spec (img : image) :
  (mode (normalize img) = "RGB" \/ mode (normalize img) = "L") /\
  has_alpha (normalize img) = false /\
  (mode img = "RGBA" \/ mode img = "LA" ->
   composited_over_white img (normalize img) /\ mode (normalize img) = "RGB") /\
  (mode img <> "RGBA" -> mode img <> "LA" -> mode img <> "RGB" -> mode img <> "L" ->
   normalize img = Convert img "RGB") /\
  (mode img = "RGB" \/ mode img = "L" -> normalize img = img).
Proof.
  assert (Hmode : mode (normalize img) = "RGB" \/ mode (normalize img) = "L").
  { destruct (normalize_cases img) as [[_ H]|[[_ H]|[Hm H]]].
    - unfold composited_over_white in H. rewrite H. now left.
    - rewrite H. now left.
    - now rewrite H. }
  split; [exact Hmode|]. split.
  { unfold has_alpha. destruct Hmode as [-> | ->]; reflexivity. }
  destruct (normalize_cases img) as [[Hm H]|[[Hm H]|[Hm H]]].
  - split; [intros _; split; [exact H|]|split].
    + unfold composited_over_white in H. now rewrite H.
    + intros N1 N2. destruct Hm; contradiction.
    + intros [E|E]; destruct Hm as [E'|E']; rewrite E in E'; discriminate.
  - destruct Hm as (N1 & N2 & N3 & N4). split; [|split].
    + intros [E|E]; contradiction.
    + intros _ _ _ _. exact H.
    + intros [E|E]; contradiction.
  - split; [|split].
    + intros [E|E]; destruct Hm as [E'|E']; rewrite E in E'; discriminate.
    + intros _ _ N3 N4. destruct Hm; contradiction.
    + intros _. exact H.
Qed.

Lemma normalize_spec_witness :
  composited_over_white (Decoded "RGBA" (4, 4)) (normalize (Decoded "RGBA" (4, 4))) /\
  mode (normalize (Decoded "RGBA" (4, 4))) = "RGB".
Proof.
  apply (proj1 (proj2 (proj2 (normalize_spec (Decoded "RGBA" (4, 4)))))).
  left. reflexivity.
Defined.

Lemma palette_alpha_not_composited :
  has_alpha (Decoded "PA" (4, 4)) = true /\
  normalize (Decoded "PA" (4, 4)) = Convert (Decoded "PA" (4, 4)) "RGB" /\
  ~ composited_over_white (Decoded "PA" (4, 4)) (normalize (Decoded "PA" (4, 4))).
Proof.
  split; [reflexivity|]. split; [reflexivity|].
  unfold composited_over_white. cbn. discriminate.
Qed.

(** ** Counting *)


Lemma saved_same_settings quality lossless method (l : list save_kwargs) :
  Forall (fun kw => kw = requested_kwargs quality lossless method) l ->
  Forall (fun kw => kw_quality kw = quality /\ kw_method kw = method) l.
Proof. apply Forall_impl. intros kw ->. now split. Qed.

(** A run of [main] on one file that passes [verify]. *)
Lemma main_single_file (w : world) (a : argv) (ns : namespace) :
  parse_args a = Some ns ->
  is_file (fs w) (ns_input ns) = true ->
  is_valid_image w (ns_input ns) = true ->
  exists self' ev res t code last_line,
    convert_to_webp w __init__ (ns_input ns) (ns_output ns) (ns_quality ns)
      (ns_lossless ns) (ns_method ns) (ns_output_folder ns) = (self', ev, (res, t)) /\
    main w a =
      {| exit_code := code;
         events := (banner ++ verbose_lines ns ++ ev ++ [Print last_line])%list;
         converter := Some self' |} /\
    (res = None -> code = 1).
Proof.
  intros Hparse Hfile Hvalid. pose proof (is_file_facts _ _ Hfile) as Hex.
  unfold main. rewrite Hparse, Hex, Hfile, Hvalid. cbn [negb].
  destruct (convert_to_webp _ _ _ _ _ _ _ _) as [[self' ev] [res t]].
  destruct res as [s|].
  - destruct (negb (String.eqb s "")); eexists _, _, _, _, _, _;
      (split; [reflexivity|]; split; [reflexivity | discriminate]).
  - eexists _, _, _, _, _, _. split; [reflexivity|]. split; reflexivity.
Qed.

(** What a run of [main] enters and saves is what its one conversion or
    its one batch does; its converter is that call's, or a fresh one. *)
Lemma main_shape (w : world) (a : argv) :
  (entered (events (main w a)) = [] /\ saved (events (main w a)) = [] /\
   (converter (main w a) = None \/ converter (main w a) = Some __init__) /\
   (parse_args a = None -> exit_code (main w a) = 2)) \/
  (exists ns self' ev r,
      parse_args a = Some ns /\
      convert_to_webp w __init__ (ns_input ns) (ns_output ns) (ns_quality ns)
        (ns_lossless ns) (ns_method ns) (ns_output_folder ns) = (self', ev, r) /\
      entered (events (main w a)) = entered ev /\
      saved (events (main w a)) = saved ev /\
      converter (main w a) = Some self') \/
  (exists ns self' ev r,
      parse_args a = Some ns /\
      batch_convert w __init__ (ns_input ns) (ns_quality ns) (ns_lossless ns)
        (ns_method ns) (ns_recursive ns) (ns_output_folder ns) = (self', ev, r) /\
      entered (events (main w a)) = entered ev /\
      saved (events (main w a)) = saved ev /\
      converter (main w a) = Some self').
Proof.
  destruct (parse_args a) as [ns|] eqn:Hparse.
  2:{ left. unfold main. rewrite Hparse. cbn. tauto. }
  destruct (exists_ (fs w) (ns_input ns)) eqn:Hex.
  2:{ left. unfold main. rewrite Hparse, Hex. cbn. repeat split; auto; discriminate. }
  destruct (is_file (fs w) (ns_input ns)) eqn:Hfile.
  - destruct (is_valid_image w (ns_input ns)) eqn:Hvalid.
    + right. left.
      destruct (main_single_file w a ns Hparse Hfile Hvalid)
        as (self' & ev & res & t & code & line & Hc & -> & _).
      exists ns, self', ev, (res, t). split; [reflexivity|]. split; [exact Hc|].
      cbn [events converter]. rewrite !entered_app, !saved_app.
      rewrite (only_prints_entered _ only_prints_banner),
        (only_prints_entered _ (only_prints_verbose_lines ns)),
        (only_prints_saved _ only_prints_banner),
        (only_prints_saved _ (only_prints_verbose_lines ns)).
      cbn. now rewrite !app_nil_r.
    + left. unfold main. rewrite Hparse, Hex, Hfile, Hvalid. cbn [negb events converter exit_code].
      rewrite !entered_app, !saved_app.
      rewrite (only_prints_entered _ only_prints_banner),
        (only_prints_entered _ (only_prints_verbose_lines ns)),
        (only_prints_saved _ only_prints_banner),
        (only_prints_saved _ (only_prints_verbose_lines ns)).
      cbn. repeat split; auto; discriminate.
  - destruct (is_dir (fs w) (ns_input ns)) eqn:Hdir.
    + right. right.
      destruct (main_directory w a ns Hparse Hdir) as (self' & ev & n & total & Hb & Hm).
      destruct (main_directory_traces w a ns self' ev n total Hm) as [He Hs].
      exists ns, self', ev, (Ok (n, total)). rewrite Hm in *. cbn [converter]. tauto.
    + left. unfold main. rewrite Hparse, Hex, Hfile, Hdir. cbn [negb events converter exit_code].
      rewrite !entered_app, !saved_app.
      rewrite (only_prints_entered _ only_prints_banner),
        (only_prints_entered _ (only_prints_verbose_lines ns)),
        (only_prints_saved _ only_prints_banner),
        (only_prints_saved _ (only_prints_verbose_lines ns)).
      cbn. repeat split; auto; discriminate.
Qed.

Lemma batch_convert_trace w self directory quality lossless method recursive output_folder :
  Forall (fun kw => kw = requested_kwargs quality lossless method)
    (saved (snd (fst (batch_convert w self directory quality lossless method recursive
                        output_folder)))).
Proof.
  destruct (batch_convert_cases w self directory quality lossless method recursive
    output_folder) as [(e & _ & ->)|[(_ & ->)|(self' & ev & total & _ & -> & _ & _ & _ & _ & Htr)]];
    cbn [fst snd saved]; try constructor.
  now apply pipeline_event_saved.
Qed.

(** C1, amended. Nothing clamps quality or method. [convert_to_webp] and
    [batch_convert] hand them to every [save] call unchanged, whatever their
    values. The argument parser rejects a quality outside 1..100 and a
    method outside 0..6 with exit status 2, before anything is encoded; so
    on a run of [main] every [save] call has the quality and the method of
    the command line (80 and 4 when absent), within 1..100 and 0..6. *)
Theorem quality_and_method_reach_the_encoder_unchanged :
  (forall w self input_path output_path quality lossless method output_folder,
      Forall (fun kw => kw_quality kw = quality /\ kw_method kw = method)
        (saved (snd (fst (convert_to_webp w self input_path output_path quality
                            lossless method output_folder))))) /\
  (forall w self directory quality lossless method recursive output_folder,
      Forall (fun kw => kw_quality kw = quality /\ kw_method kw = method)
        (saved (snd (fst (batch_convert w self directory quality lossless method
                            recursive output_folder))))) /\
  (forall a q, arg_quality a = Some q -> ~ 1 <= q <= 100 -> parse_args a = None) /\
  (forall a m, arg_method a = Some m -> ~ 0 <= m <= 6 -> parse_args a = None) /\
  (forall w a,
      match parse_args a with
      | None => exit_code (main w a) = 2 /\ saved (events (main w a)) = []
      | Some ns =>
          ns_quality ns = match arg_quality a with Some q => q | None => 80 end /\
          ns_method ns = match arg_method a with Some m => m | None => 4 end /\
          Forall (fun kw => kw_quality kw = ns_quality ns /\ 1 <= kw_quality kw <= 100 /\
                            kw_method kw = ns_method ns /\ 0 <= kw_method kw <= 6)
            (saved (events (main w a)))
      end).
Proof.
  split; [|split; [|split; [|split]]].
  - intros. eapply saved_same_settings, pipeline_event_saved, convert_to_webp_trace.
  - intros. eapply saved_same_settings, batch_convert_trace.
  - intros a q. apply (proj1 (parse_args_rejects a)).
  - intros a m. apply (proj2 (parse_args_rejects a)).
  - intros w a.
    destruct (main_shape w a) as [(_ & Hs & _ & Hcode)|[(ns & self' & ev & r & Hp & Hc & _ & Hs & _)
                                  |(ns & self' & ev & r & Hp & Hb & _ & Hs & _)]].
    + destruct (parse_args a) as [ns|] eqn:Hp.
      * destruct (parse_args_range a ns Hp) as (_ & _ & _ & _ & _ & _ & _ & Hq & Hm).
        rewrite Hs. repeat split; auto.
      * split; auto.
    + rewrite Hp, Hs.
      destruct (parse_args_range a ns Hp) as (Hqr & Hmr & _ & _ & _ & _ & _ & Hq & Hm).
      split; [exact Hq|]. split; [exact Hm|].
      pose proof (convert_to_webp_trace w __init__ (ns_input ns) (ns_output ns) (ns_quality ns)
        (ns_lossless ns) (ns_method ns) (ns_output_folder ns)) as Htr.
      rewrite Hc in Htr. cbn [fst snd] in Htr. apply pipeline_event_saved in Htr.
      eapply Forall_impl; [|exact Htr]. intros kw ->. cbn. repeat split; lia.
    + rewrite Hp, Hs.
      destruct (parse_args_range a ns Hp) as (Hqr & Hmr & _ & _ & _ & _ & _ & Hq & Hm).
      split; [exact Hq|]. split; [exact Hm|].
      pose proof (batch_convert_trace w __init__ (ns_input ns) (ns_quality ns)
        (ns_lossless ns) (ns_method ns) (ns_recursive ns) (ns_output_folder ns)) as Htr.
      rewrite Hb in Htr. cbn [fst snd] in Htr.
      eapply Forall_impl; [|exact Htr]. intros kw ->. cbn. repeat split; lia.
Qed.

Lemma quality_500_reaches_the_encoder :
  saved (snd (fst (convert_to_webp Sample.w __init__ ["pics"; "a.JPG"] None 500 false 9 None))) =
    [requested_kwargs 500 false 9] /\
  kw_quality (requested_kwargs 500 false 9) = 500 /\
  kw_method (requested_kwargs 500 false 9) = 9 /\
  ~ 1 <= 500 <= 100 /\ ~ 0 <= 9 <= 6.
Proof.
  split; [vm_compute; reflexivity|]. repeat split; try reflexivity; lia.
Qed.

Lemma quality_and_method_witness : parse_args Sample.argv_quality_500 = None.
Proof.
  apply (proj1 (proj2 (proj2 quality_and_method_reach_the_encoder_unchanged))
           Sample.argv_quality_500 500).
  - reflexivity.
  - lia.
Defined.



(** C9, amended. When at least one supported file is discovered, the
    first component returned by [batch_convert] is the converter's
    cumulative [converted_count]: the count before the call plus the
    successes of the call. When none is discovered it is 0, whatever the
    converter has counted before, and the converter is unchanged. It is the
    number of successes of the call whenever [converted_count] was 0 on
    entry, as on a new converter. *)
Theorem batch_convert_returned_count
    (w : world) (self self' : WebPConverter) (directory : Path.t) (quality : Z)
    (lossless : bool) (method : Z) (recursive : bool) (output_folder : option Path.t)
    (ev : list event) (n : Z) (total : Q) :
  batch_convert w self directory quality lossless method recursive output_folder =
    (self', ev, Ok (n, total)) ->
  let found := _find_image_files w directory recursive in
  let good := filter (converts w quality lossless method output_folder) found in
  (found <> [] ->
   n = converted_count self' /\
   n = converted_count self + Z.of_nat (List.length good)) /\
  (found = [] -> n = 0 /\ self' = self) /\
  (converted_count self = 0 -> n = Z.of_nat (List.length good)).
Proof.
  intros Hb found good.
  destruct (batch_convert_cases w self directory quality lossless method recursive
    output_folder) as [(e & _ & Hb')|[(Hf & Hb')|(s' & ev' & t' & Hf & Hb' & _ & Hc & _)]];
    rewrite Hb' in Hb; [discriminate| |].
  - injection Hb as <- _ <- _. fold found in Hf. subst good. rewrite Hf.
    repeat split; auto; try contradiction.
  - injection Hb as <- _ <- _. fold found in Hf. fold found good in Hc.
    split; [intros _; split; [reflexivity | exact Hc]|]. split; [contradiction|].
    intros H0. lia.
Qed.

Lemma batch_convert_returned_count_witness :
  3 = converted_count {| converted_count := 3; failed_count := 1 |} /\
  3 = converted_count __init__ +
      Z.of_nat (List.length (filter (converts Sample.w 80 false 4 None)
                               (_find_image_files Sample.w ["pics"] false))).
Proof.
  refine (proj1 (batch_convert_returned_count Sample.w __init__
                   {| converted_count := 3; failed_count := 1 |} ["pics"] 80 false 4 false None
                   (snd (fst (batch_convert Sample.w __init__ ["pics"] 80 false 4 false None)))
                   3 (snd (match snd (batch_convert Sample.w __init__ ["pics"] 80 false 4 false None)
                           with Ok x => x | Raise _ => (0, 0%Q) end))
                   _) _).
  - vm_compute. reflexivity.
  - vm_compute. discriminate.
Defined.

Lemma second_batch_forgets_earlier_successes :
  exists (self1 : WebPConverter) (ev1 ev2 : list event) (t1 : Q),
    batch_convert Sample.w __init__ ["pics"] 80 false 4 false None =
      (self1, ev1, Ok (3, t1)) /\
    batch_convert Sample.w self1 ["empty"] 80 false 4 false None =
      (self1, ev2, Ok (0, 0%Q)) /\
    converted_count self1 = 3.
Proof.
  eexists _, _, _, _. split; [vm_compute; reflexivity|]. split; vm_compute; reflexivity.
Qed.

(** C10. When [convert_to_webp] returns no path, the time it returns is
    exactly 0.0. The total time returned by [batch_convert] is the sum of
    the elapsed times of the conversions that went through; in the loop a
    failed file contributes 0.0 and a converted one its elapsed time. *)
Theorem failed_conversions_add_no_time :
  (forall w self input_path output_path quality lossless method output_folder,
      let out := snd (convert_to_webp w self input_path output_path quality lossless
                        method output_folder) in
      fst out = None -> snd out = 0%Q) /\
  (forall w self directory quality lossless method recursive output_folder,
      match snd (batch_convert w self directory quality lossless method recursive
                   output_folder) with
      | Ok (_, total_time) =>
          (total_time ==
           sum_Q (map (elapsed w)
                    (filter (converts w quality lossless method output_folder)
                       (_find_image_files w directory recursive))))%Q
      | Raise _ => True
      end) /\
  (forall w self p quality lossless method output_folder,
      snd (snd (convert_to_webp w self p None quality lossless method output_folder)) =
        if converts w quality lossless method output_folder p then elapsed w p else 0%Q).
Proof.
  split; [|split].
  - intros w self input_path output_path quality lossless method output_folder out.
    destruct (convert_to_webp_cases w self input_path output_path quality lossless method
      output_folder) as [(ev & o & t & _ & Hc)|(ev & e & _ & Hc)];
      subst out; rewrite Hc; cbn; [intros H; discriminate H | reflexivity].
  - intros.
    destruct (batch_convert_cases w self directory quality lossless method recursive
      output_folder) as [(e & _ & ->)|[(Hf & ->)|(s' & ev' & t' & _ & -> & _ & _ & _ & Ht & _)]];
      cbn [snd]; [exact I | | exact Ht].
    rewrite Hf. reflexivity.
  - intros.
    destruct (converts_cases w self p quality lossless method output_folder) as (ev & out & ->).
    destruct (converts w quality lossless method output_folder p); reflexivity.
Qed.

Lemma failed_conversions_add_no_time_witness :
  snd (snd (convert_to_webp Sample.w __init__ ["pics"; "x.bmp"] None 80 false 4 None)) = 0%Q.
Proof.
  apply (proj1 failed_conversions_add_no_time Sample.w __init__ ["pics"; "x.bmp"] None 80 false 4 None).
  reflexivity.
Defined.

(** ** Exit codes *)








(** * Further properties *)

(** ** Output names *)

Lemma length_append (s t : string) :
  String.length (s ++ t) = (String.length s + String.length t)%nat.
Proof. induction s as [|c s IH]; cbn; [reflexivity | now rewrite IH]. Qed.

Lemma rfind_dot_webp (s : string) :
  Text.rfind_dot (s ++ ".webp") = Some (String.length s).
Proof. induction s as [|c s IH]; cbn; [reflexivity | now rewrite IH]. Qed.

Lemma substring_append_r (s t : string) :
  substring (String.length s) (String.length t) (s ++ t) = t.
Proof.
  induction s as [|c s IH]; cbn; [|exact IH].
  induction t as [|c t IHt]; cbn; [reflexivity | now rewrite IHt].
Qed.

Lemma substring_append_l (s t : string) :
  substring 0 (String.length s) (s ++ t) = s.
Proof.
  induction s as [|c s IH]; cbn; [now destruct t | now rewrite IH].
Qed.

Lemma substring_0_nonempty (i : nat) (n : string) :
  (0 < i)%nat -> n <> "" -> substring 0 i n <> "".
Proof. destruct i; [lia|]. destruct n; [congruence|]. cbn. discriminate. Qed.

Lemma stem_nonempty (p : Path.t) : Path.name p <> "" -> Path.stem p <> "".
Proof.
  intros Hn. unfold Path.stem.
  destruct (Text.rfind_dot (Path.name p)) as [i|]; [|exact Hn].
  destruct (Nat.ltb_spec 0 i); cbn [andb]; [|exact Hn].
  destruct (i <? String.length (Path.name p) - 1)%nat; [|exact Hn].
  now apply substring_0_nonempty.
Qed.

(** A name [<stem>.webp] splits back into its stem and [.webp]. *)
Lemma webp_name (d : Path.t) (s : string) :
  s <> "" ->
  Path.name (Path.div d (s ++ ".webp")) = s ++ ".webp" /\
  Path.suffix (Path.div d (s ++ ".webp")) = ".webp" /\
  Path.stem (Path.div d (s ++ ".webp")) = s /\
  Path.parent (Path.div d (s ++ ".webp")) = d.
Proof.
  intros Hs.
  assert (Hname : Path.name (Path.div d (s ++ ".webp")) = s ++ ".webp").
  { unfold Path.name, Path.div. apply last_last. }
  assert (Hlen : (0 < String.length s)%nat) by (destruct s; [congruence | cbn; lia]).
  assert (Hcond : ((0 <? String.length s) &&
                   (String.length s <? String.length (s ++ ".webp") - 1))%nat = true).
  { rewrite length_append. cbn [String.length].
    apply andb_true_intro. split; apply Nat.ltb_lt; lia. }
  split; [exact Hname|]. split; [|split].
  - unfold Path.suffix. rewrite Hname, rfind_dot_webp, Hcond, length_append.
    replace (String.length s + String.length ".webp" - String.length s)%nat
      with (String.length ".webp") by lia.
    apply substring_append_r.
  - unfold Path.stem. rewrite Hname, rfind_dot_webp, Hcond.
    apply substring_append_l.
  - unfold Path.parent, Path.div. apply removelast_last.
Qed.

Lemma resolved_output_path_derived (input_path : Path.t) (output_folder : option Path.t) :
  resolved_output_path input_path None output_folder =
    Path.div (match output_folder with
              | Some folder => folder
              | None => Path.parent input_path
              end) (Path.stem input_path ++ ".webp").
Proof. now destruct output_folder. Qed.

(** ** The steps of one conversion, event by event *)

Lemma made_app (ev1 ev2 : list event) : made (ev1 ++ ev2) = (made ev1 ++ made ev2)%list.
Proof. induction ev1 as [|[] ev1 IH]; cbn; congruence. Qed.

Lemma encoded_app (ev1 ev2 : list event) :
  encoded (ev1 ++ ev2) = (encoded ev1 ++ encoded ev2)%list.
Proof. induction ev1 as [|[] ev1 IH]; cbn; congruence. Qed.

Lemma only_prints_made (ev : list event) : only_prints ev -> made ev = [].
Proof. induction 1 as [|e ev He _ IH]; [reflexivity|]. destruct e; cbn; tauto. Qed.

Lemma only_prints_encoded (ev : list event) : only_prints ev -> encoded ev = [].
Proof. induction 1 as [|e ev He _ IH]; [reflexivity|]. destruct e; cbn; tauto. Qed.

Lemma only_prints_map_Print (lines : list string) : only_prints (map Print lines).
Proof. induction lines; constructor; [exact I | assumption]. Qed.


Lemma resolution_step r input_path output_path output_folder :
  resolves r output_path output_folder ->
  match output_path with
  | Some p => ret p
  | None =>
      match output_folder with
      | Some folder =>
          emit (Mkdir folder) ;;; lift (mkdir_r r) ;;;
          ret (Path.div folder (Path.stem input_path ++ ".webp"))
      | None =>
          ret (Path.div (Path.parent input_path) (Path.stem input_path ++ ".webp"))
      end
  end = (resolution_events output_path output_folder,
         Ok (resolved_output_path input_path output_path output_folder)).
Proof.
  intros H. destruct output_path as [p|]; [reflexivity|].
  destruct output_folder as [folder|]; [|reflexivity].
  destruct H as [H|[H|H]]; try congruence. now rewrite H.
Qed.

Lemma normalization_step r img :
  normalizes r img ->
  (if Text.mem (mode img) ["RGB"; "L"] then ret tt else lift (normalize_r r)) = ([], Ok tt).
Proof. intros [-> | ->]; [reflexivity|]. now destruct (Text.mem _ _). Qed.

(** Either a step before the encoder raises, and nothing is encoded or
    printed, or the encoder is reached. *)
Lemma encoder_reached_or_not r input_path output_path quality lossless method output_folder :
  (exists e,
      convert_steps r input_path output_path quality lossless method output_folder =
        (resolution_events output_path output_folder, Raise e) \/
      convert_steps r input_path output_path quality lossless method output_folder =
        ((resolution_events output_path output_folder ++ [Open input_path])%list, Raise e)) \/
  (exists img, reaches_encoder r output_path output_folder img).
Proof.
  unfold reaches_encoder, resolves, normalizes, convert_steps.
  destruct output_path as [p|]; [|destruct output_folder as [folder|]];
    cbn [resolution_events];
    try (destruct (mkdir_r r) as [[]|e] eqn:Hm; [|left; exists e; left; reflexivity]);
    cbn [bind emit lift ret app];
    (destruct (open_r r) as [img|e] eqn:Ho; [|left; exists e; right; reflexivity]);
    cbn [bind emit lift ret app];
    (destruct (Text.mem (mode img) ["RGB"; "L"]) eqn:Hmode;
     [right; exists img; repeat split; auto; try (left; discriminate)|]);
    (destruct (normalize_r r) as [[]|e] eqn:Hn;
     [right; exists img; repeat split; auto; try (left; discriminate)
     |left; exists e; right; reflexivity]).
Qed.

(** Once the encoder is reached: the trace up to the [save] call, and how
    the rest goes. *)
Lemma convert_steps_encoder r input_path output_path quality lossless method output_folder img :
  reaches_encoder r output_path output_folder img ->
  let out := resolved_output_path input_path output_path output_folder in
  let kw := requested_kwargs quality lossless method in
  exists (lines : list string) (res : result (string * Q)),
    convert_steps r input_path output_path quality lossless method output_folder =
      ((resolution_events output_path output_folder ++
        [Open input_path; Save (normalize img) out kw] ++ map Print lines)%list, res) /\
    (forall e, save_r r (normalize img) out kw = Raise e -> res = Raise e /\ lines = []) /\
    (save_r r (normalize img) out kw = Ok tt ->
     (forall e, stat_input r = Raise e -> res = Raise e /\ lines = []) /\
     (forall o e, stat_input r = Ok o -> stat_output r = Raise e ->
                  res = Raise e /\ lines = []) /\
     (forall c, stat_input r = Ok 0 -> stat_output r = Ok c ->
                res = Raise "division by zero" /\ lines = []) /\
     (forall o c so sc,
         stat_input r = Ok o -> stat_output r = Ok c -> o <> 0 ->
         format_size o = Ok so -> format_size c = Ok sc ->
         res = Ok (Path.str out, (end_time r - start_time r)%Q) /\
         lines = report_lines input_path out so sc
                   ((1 - inject_Z c / inject_Z o) * 100)%Q
                   (end_time r - start_time r)%Q)).
Proof.
  intros (Hr & Ho & Hn) out kw. unfold convert_steps.
  fold (requested_kwargs quality lossless method). fold kw.
  rewrite (resolution_step r input_path _ _ Hr). fold out.
  rewrite Ho. cbn [bind lift emit ret app]. rewrite (normalization_step r img Hn).
  cbn [bind lift emit ret app].
  destruct (save_r r (normalize img) out kw) as [[]|e] eqn:Hs.
  2:{ exists [], (Raise e). split; [reflexivity|].
      split; [intros e' [= <-]; now split | discriminate]. }
  cbn [bind lift emit ret app].
  destruct (stat_input r) as [o|e] eqn:Hsi.
  2:{ exists [], (Raise e). split; [reflexivity|].
      split; [discriminate|]. intros _.
      split; [intros e' [= <-]; now split|].
      split; [discriminate|]. split; discriminate. }
  cbn [bind lift emit ret app].
  destruct (stat_output r) as [c|e] eqn:Hso.
  2:{ exists [], (Raise e). split; [reflexivity|].
      split; [discriminate|]. intros _.
      split; [discriminate|].
      split; [intros o' e' _ [= <-]; now split|]. split; discriminate. }
  cbn [bind lift emit ret app].
  destruct (Z.eqb_spec o 0) as [->|Hnz].
  { exists [], (Raise "division by zero"). split; [reflexivity|].
    split; [discriminate|]. intros _.
    split; [discriminate|]. split; [discriminate|].
    split; [intros c' _ _; now split|].
    intros o' c' so sc [= <-]. congruence. }
  unfold _print_conversion_result. cbn [bind lift emit ret app print].
  destruct (format_size o) as [so|e] eqn:Hfo.
  2:{ eexists [_; _], (Raise e). split; [cbn [map]; reflexivity|].
      split; [discriminate|]. intros _.
      split; [discriminate|]. split; [discriminate|].
      split; [intros c' [= ?]; congruence|].
      intros o' c' so sc [= <-] _ _ Hc. congruence. }
  cbn [bind lift emit ret app print].
  destruct (format_size c) as [sc|e] eqn:Hfc.
  2:{ eexists [_; _; _], (Raise e). split; [cbn [map]; reflexivity|].
      split; [discriminate|]. intros _.
      split; [discriminate|]. split; [discriminate|].
      split; [intros c' [= ?]; congruence|].
      intros o' c' so' sc' [= <-] [= <-] _ _ Hc. congruence. }
  cbn [bind lift emit ret app print].
  exists (report_lines input_path out so sc ((1 - inject_Z c / inject_Z o) * 100)%Q
            (end_time r - start_time r)%Q),
    (Ok (Path.str out, (end_time r - start_time r)%Q)).
  split; [reflexivity|].
  split; [discriminate|]. intros _.
  split; [discriminate|]. split; [discriminate|].
  split; [intros c' [= ?]; congruence|].
  intros o' c' so' sc' [= <-] [= <-] _ Hso' Hsc'.
  assert (so' = so) by congruence. assert (sc' = sc) by congruence. subst. now split.
Qed.

(** What [convert_to_webp] adds around the steps: the entry mark and, on
    failure, the error line. Neither is a folder made or an encoder call. *)
Lemma convert_to_webp_around w self input_path output_path quality lossless method output_folder :
  exists ev res,
    convert_steps (run_of w input_path) input_path output_path quality lossless
      method output_folder = (ev, res) /\
    made (snd (fst (convert_to_webp w self input_path output_path quality lossless
                      method output_folder))) = made ev /\
    encoded (snd (fst (convert_to_webp w self input_path output_path quality lossless
                         method output_folder))) = encoded ev /\
    printed (snd (fst (convert_to_webp w self input_path output_path quality lossless
                         method output_folder))) =
      (printed ev ++ match res with
                     | Ok _ => []
                     | Raise e => [error_line input_path e]
                     end)%list /\
    snd (convert_to_webp w self input_path output_path quality lossless
           method output_folder) =
      match res with
      | Ok (out, t) => (Some out, t)
      | Raise _ => (None, 0%Q)
      end /\
    fst (fst (convert_to_webp w self input_path output_path quality lossless
                method output_folder)) =
      match res with
      | Ok _ => {| converted_count := converted_count self + 1;
                   failed_count := failed_count self |}
      | Raise _ => {| converted_count := converted_count self;
                      failed_count := failed_count self + 1 |}
      end.
Proof.
  destruct (convert_to_webp_cases w self input_path output_path quality lossless method
    output_folder) as [(ev & out & t & Hs & ->)|(ev & e & Hs & ->)].
  - exists ev, (Ok (out, t)). cbn [fst snd made encoded printed].
    rewrite app_nil_r. repeat split; auto.
  - exists ev, (Raise e). cbn [fst snd made encoded printed].
    rewrite made_app, encoded_app, printed_app. cbn. rewrite !app_nil_r.
    repeat split; auto.
Qed.

Lemma resolution_events_made (output_path output_folder : option Path.t) :
  made (resolution_events output_path output_folder) =
    match output_path, output_folder with
    | None, Some folder => [folder]
    | _, _ => []
    end /\
  encoded (resolution_events output_path output_folder) = [] /\
  printed (resolution_events output_path output_folder) = [].
Proof. destruct output_path, output_folder; repeat split; reflexivity. Qed.

(** The traces of the steps, folder by folder and call by call. *)
Lemma convert_steps_made r input_path output_path quality lossless method output_folder :
  made (fst (convert_steps r input_path output_path quality lossless method output_folder)) =
    match output_path, output_folder with
    | None, Some folder => [folder]
    | _, _ => []
    end.
Proof.
  destruct (resolution_events_made output_path output_folder) as (Hm & _ & _).
  destruct (encoder_reached_or_not r input_path output_path quality lossless method
    output_folder) as [(e & [-> | ->])|(img & Hreach)]; cbn [fst].
  - exact Hm.
  - rewrite made_app, Hm. cbn. now rewrite app_nil_r.
  - destruct (convert_steps_encoder r input_path output_path quality lossless method
      output_folder img Hreach) as (lines & res & -> & _).
    cbn [fst]. rewrite made_app, Hm. cbn [app made].
    rewrite (only_prints_made _ (only_prints_map_Print lines)). now rewrite app_nil_r.
Qed.

Lemma convert_steps_encoded r input_path output_path quality lossless method output_folder :
  (forall img,
      reaches_encoder r output_path output_folder img ->
      encoded (fst (convert_steps r input_path output_path quality lossless method
                      output_folder)) =
        [(normalize img, resolved_output_path input_path output_path output_folder,
          requested_kwargs quality lossless method)]) /\
  ((forall img, ~ reaches_encoder r output_path output_folder img) ->
   encoded (fst (convert_steps r input_path output_path quality lossless method
                   output_folder)) = []).
Proof.
  destruct (resolution_events_made output_path output_folder) as (_ & He & _).
  split.
  - intros img Hreach.
    destruct (convert_steps_encoder r input_path output_path quality lossless method
      output_folder img Hreach) as (lines & res & -> & _).
    cbn [fst]. rewrite encoded_app, He. cbn [app encoded].
    now rewrite (only_prints_encoded _ (only_prints_map_Print lines)).
  - intros Hnot.
    destruct (encoder_reached_or_not r input_path output_path quality lossless method
      output_folder) as [(e & [-> | ->])|(img & Hreach)]; cbn [fst].
    + exact He.
    + rewrite encoded_app, He. reflexivity.
    + now destruct (Hnot img).
Qed.

Lemma normalize_mode (img : image) :
  (mode (normalize img) = "RGB" \/ mode (normalize img) = "L") /\
  has_alpha (normalize img) = false.
Proof.
  assert (Hmode : mode (normalize img) = "RGB" \/ mode (normalize img) = "L").
  { destruct (normalize_cases img) as [[_ H]|[[_ H]|[Hm H]]].
    - unfold composited_over_white in H. rewrite H. now left.
    - rewrite H. now left.
    - now rewrite H. }
  split; [exact Hmode|]. unfold has_alpha. destruct Hmode as [-> | ->]; reflexivity.
Qed.

(** X4. A conversion calls the encoder at most once, and only when the
    output path was resolved, the source decoded and the colour step went
    through; the call then gets the normalised image, whose mode is RGB or
    L and which has no alpha channel, the resolved output path, format
    WEBP, [optimize] on, the quality and method of the call, and a
    [lossless] key exactly when lossless was asked for. *)
Theorem encoder_called_once_on_normalized_image
    (w : world) (self : WebPConverter) (input_path : Path.t)
    (output_path : option Path.t) (quality : Z) (lossless : bool) (method : Z)
    (output_folder : option Path.t) :
  let r := run_of w input_path in
  let calls := encoded (snd (fst (convert_to_webp w self input_path output_path quality
                                    lossless method output_folder))) in
  (forall img,
      reaches_encoder r output_path output_folder img ->
      calls = [(normalize img, resolved_output_path input_path output_path output_folder,
                requested_kwargs quality lossless method)]) /\
  ((forall img, ~ reaches_encoder r output_path output_folder img) -> calls = []) /\
  (List.length calls <= 1)%nat /\
  Forall (fun call =>
            let '(im, _, kw) := call in
            (mode im = "RGB" \/ mode im = "L") /\ has_alpha im = false /\
            kw_format kw = "WEBP" /\ kw_optimize kw = true /\
            kw_lossless kw = if lossless then Some true else None) calls.
Proof.
  intros r calls.
  destruct (convert_to_webp_around w self input_path output_path quality lossless method
    output_folder) as (ev & res & Hs & _ & He & _).
  destruct (convert_steps_encoded r input_path output_path quality lossless method
    output_folder) as [Hyes Hno].
  fold r in Hs. rewrite Hs in Hyes, Hno. cbn [fst] in Hyes, Hno.
  subst calls. rewrite He.
  split; [exact Hyes|]. split; [exact Hno|].
  destruct (encoder_reached_or_not r input_path output_path quality lossless method
    output_folder) as [(e & Hstop)|(img & Hreach)].
  - assert (Hnil : encoded ev = []).
    { destruct (resolution_events_made output_path output_folder) as (_ & Hre & _).
      destruct Hstop as [H|H]; rewrite H in Hs; injection Hs as <- _;
        [exact Hre | now rewrite encoded_app, Hre]. }
    rewrite Hnil. split; [cbn; lia | constructor].
  - rewrite (Hyes img Hreach). split; [cbn; lia|].
    constructor; [|constructor].
    destruct (normalize_mode img) as [Hm Ha]. repeat split; auto.
Qed.

(** X5. The output folder is made exactly when no explicit output path
    is given and a folder is, and then once. An explicit output path wins
    over the folder: every encoder call targets it and no folder is made.
    When the folder cannot be made, the source is not opened and the
    conversion fails with that error. *)
Theorem output_folder_made_only_when_used
    (w : world) (self : WebPConverter) (input_path : Path.t)
    (output_path : option Path.t) (quality : Z) (lossless : bool) (method : Z)
    (output_folder : option Path.t) :
  let out := convert_to_webp w self input_path output_path quality lossless method
               output_folder in
  made (snd (fst out)) =
    match output_path, output_folder with
    | None, Some folder => [folder]
    | _, _ => []
    end /\
  (forall p, output_path = Some p ->
             Forall (fun call => snd (fst call) = p) (encoded (snd (fst out)))) /\
  (forall folder e,
      output_path = None -> output_folder = Some folder -> mkdir_r (run_of w input_path) = Raise e ->
      snd (fst out) = [Enter input_path; Mkdir folder; Print (error_line input_path e)] /\
      snd out = (None, 0%Q)).
Proof.
  intros out. subst out.
  destruct (convert_to_webp_around w self input_path output_path quality lossless method
    output_folder) as (ev & res & Hs & Hm & He & _).
  split; [|split].
  - rewrite Hm. pose proof (convert_steps_made (run_of w input_path) input_path output_path
      quality lossless method output_folder) as H. now rewrite Hs in H.
  - intros p ->. rewrite He.
    destruct (convert_steps_encoded (run_of w input_path) input_path (Some p) quality lossless
      method output_folder) as [Hyes Hno]. rewrite Hs in Hyes, Hno. cbn [fst] in Hyes, Hno.
    destruct (encoder_reached_or_not (run_of w input_path) input_path (Some p) quality lossless
      method output_folder) as [(e & Hstop)|(img & Hreach)].
    + assert (Hnil : encoded ev = []).
      { destruct Hstop as [H|H]; rewrite H in Hs; injection Hs as <- _; reflexivity. }
      rewrite Hnil. constructor.
    + rewrite (Hyes img Hreach). constructor; [reflexivity | constructor].
  - intros folder e -> -> Hmk. unfold convert_to_webp, convert_steps.
    rewrite Hmk. cbn. split; reflexivity.
Qed.

Lemma output_folder_witness :
  snd (fst (convert_to_webp Sample.w_read_only __init__ ["pics"; "a.JPG"] None 80 false 4
              (Some ["out"]))) =
    [Enter ["pics"; "a.JPG"]; Mkdir ["out"];
     Print (error_line ["pics"; "a.JPG"] "Permission denied")] /\
  snd (convert_to_webp Sample.w_read_only __init__ ["pics"; "a.JPG"] None 80 false 4
         (Some ["out"])) = (None, 0%Q).
Proof.
  apply (proj2 (proj2 (output_folder_made_only_when_used Sample.w_read_only __init__
                         ["pics"; "a.JPG"] None 80 false 4 (Some ["out"])))
           ["out"] "Permission denied"); reflexivity.
Defined.

(** Without an explicit output path every encoder call targets
    [<stem>.webp], in the output folder or beside the source. *)
Lemma derived_targets w self input_path quality lossless method output_folder :
  Path.name input_path <> "" ->
  let dir := match output_folder with
             | Some folder => folder
             | None => Path.parent input_path
             end in
  Forall (fun call =>
            let target := snd (fst call) in
            Path.parent target = dir /\
            Path.name target = Path.stem input_path ++ ".webp" /\
            Path.stem target = Path.stem input_path /\
            Path.suffix target = ".webp")
    (encoded (snd (fst (convert_to_webp w self input_path None quality lossless method
                          output_folder)))).
Proof.
  intros Hname dir.
  destruct (webp_name dir (Path.stem input_path) (stem_nonempty _ Hname))
    as (Hn & Hsuf & Hstem & Hpar).
  pose proof (resolved_output_path_derived input_path output_folder) as Hres. fold dir in Hres.
  destruct (convert_to_webp_around w self input_path None quality lossless method
    output_folder) as (ev & res & Hs & _ & He & _).
  destruct (convert_steps_encoded (run_of w input_path) input_path None quality lossless
    method output_folder) as [Hyes Hno]. rewrite Hs in Hyes, Hno. cbn [fst] in Hyes, Hno.
  rewrite He.
  destruct (encoder_reached_or_not (run_of w input_path) input_path None quality lossless
    method output_folder) as [(e & Hstop)|(img & Hreach)].
  - assert (Hnil : encoded ev = []).
    { destruct (resolution_events_made None output_folder) as (_ & Hre & _).
      destruct Hstop as [H|H]; rewrite H in Hs; injection Hs as <- _; [exact Hre|].
      rewrite encoded_app. cbn [encoded]. rewrite app_nil_r. exact Hre. }
    rewrite Hnil. constructor.
  - rewrite (Hyes img Hreach), Hres.
    constructor; [|constructor]. cbn [fst snd]. now repeat split.
Qed.

(** X6. Without an explicit output path, and for a source with a
    non-empty name, every encoder call targets [<stem>.webp], with the stem
    of the source and the extension .webp, in the output folder when one is
    given and beside the source otherwise; the path returned on success is
    that target, and it has been encoded. *)
Theorem derived_output_is_stem_webp
    (w : world) (self : WebPConverter) (input_path : Path.t)
    (quality : Z) (lossless : bool) (method : Z) (output_folder : option Path.t) :
  Path.name input_path <> "" ->
  let out := convert_to_webp w self input_path None quality lossless method output_folder in
  let dir := match output_folder with
             | Some folder => folder
             | None => Path.parent input_path
             end in
  Forall (fun call =>
            let target := snd (fst call) in
            Path.parent target = dir /\
            Path.name target = Path.stem input_path ++ ".webp" /\
            Path.stem target = Path.stem input_path /\
            Path.suffix target = ".webp") (encoded (snd (fst out))) /\
  (forall s, fst (snd out) = Some s ->
             s = Path.str (Path.div dir (Path.stem input_path ++ ".webp")) /\
             encoded (snd (fst out)) <> []).
Proof.
  intros Hname out dir. subst out.
  split; [now apply derived_targets|].
  pose proof (resolved_output_path_derived input_path output_folder) as Hres. fold dir in Hres.
  destruct (convert_to_webp_around w self input_path None quality lossless method
    output_folder) as (ev & res & Hs & _ & He & _ & Hret & _).
  destruct (convert_steps_encoded (run_of w input_path) input_path None quality lossless
    method output_folder) as [Hyes _]. rewrite Hs in Hyes. cbn [fst] in Hyes.
  rewrite He, Hret. intros s Hsome.
  destruct res as [[o t]|e]; [|discriminate]. injection Hsome as <-.
  pose proof Hs as Hinv. apply convert_steps_Ok_inv in Hinv. destruct Hinv as [-> _].
  split; [now rewrite Hres|].
  destruct (encoder_reached_or_not (run_of w input_path) input_path None quality lossless
    method output_folder) as [(e & Hstop)|(img & Hreach)].
  - destruct Hstop as [H|H]; rewrite H in Hs; discriminate.
  - rewrite (Hyes img Hreach). discriminate.
Qed.

Lemma derived_output_witness :
  "out/a.webp" = Path.str (Path.div ["out"] (Path.stem ["pics"; "a.JPG"] ++ ".webp")) /\
  encoded (snd (fst (convert_to_webp Sample.w __init__ ["pics"; "a.JPG"] None 80 false 4
                       (Some ["out"])))) <> [].
Proof.
  refine (proj2 (derived_output_is_stem_webp Sample.w __init__ ["pics"; "a.JPG"] 80 false 4
                   (Some ["out"]) _) "out/a.webp" _).
  - discriminate.
  - reflexivity.
Defined.

(** X7. A conversion can fail after its output was written: when the
    encoder has returned and then a size cannot be read, or the source has
    size 0 so that the ratio divides by zero, the call is counted as failed
    and returns no path, with the one error line, although the trace holds
    the completed [save] of the output. *)
Theorem failure_after_encoding_leaves_the_output
    (w : world) (self : WebPConverter) (input_path : Path.t)
    (output_path : option Path.t) (quality : Z) (lossless : bool) (method : Z)
    (output_folder : option Path.t) (img : image) (e : string) :
  let r := run_of w input_path in
  let target := resolved_output_path input_path output_path output_folder in
  let kw := requested_kwargs quality lossless method in
  reaches_encoder r output_path output_folder img ->
  save_r r (normalize img) target kw = Ok tt ->
  (stat_input r = Raise e \/
   (exists o, stat_input r = Ok o /\ stat_output r = Raise e) \/
   (exists c, stat_input r = Ok 0 /\ stat_output r = Ok c /\ e = "division by zero")) ->
  let out := convert_to_webp w self input_path output_path quality lossless method
               output_folder in
  encoded (snd (fst out)) = [(normalize img, target, kw)] /\
  printed (snd (fst out)) = [error_line input_path e] /\
  snd out = (None, 0%Q) /\
  failed_count (fst (fst out)) = failed_count self + 1 /\
  converted_count (fst (fst out)) = converted_count self.
Proof.
  intros r target kw Hreach Hsave Hfail out. subst out.
  destruct (convert_to_webp_around w self input_path output_path quality lossless method
    output_folder) as (ev & res & Hs & _ & He & Hp & Hret & Hself).
  destruct (convert_steps_encoder r input_path output_path quality lossless method
    output_folder img Hreach) as (lines & res' & Hs' & _ & Hafter).
  fold r in Hs. rewrite Hs in Hs'. injection Hs' as -> ->.
  destruct (Hafter Hsave) as (Hin & Hout & Hzero & _).
  assert (Hres : res' = Raise e /\ lines = []).
  { destruct Hfail as [H|[(o & H1 & H2)|(c & H1 & H2 & ->)]]; eauto. }
  destruct Hres as [-> ->].
  destruct (resolution_events_made output_path output_folder) as (_ & Hre & Hrp).
  rewrite He, Hp, Hret, Hself. rewrite encoded_app, printed_app, Hre, Hrp. cbn.
  repeat split; reflexivity.
Qed.

Lemma failure_after_encoding_witness :
  let out := convert_to_webp Sample.w_empty_source __init__ ["pics"; "a.JPG"] None 80 false 4
               None in
  encoded (snd (fst out)) =
    [(normalize (Decoded "L" (1, 1)), ["pics"; "a.webp"], requested_kwargs 80 false 4)] /\
  printed (snd (fst out)) = [error_line ["pics"; "a.JPG"] "division by zero"] /\
  snd out = (None, 0%Q) /\
  failed_count (fst (fst out)) = failed_count __init__ + 1 /\
  converted_count (fst (fst out)) = converted_count __init__.
Proof.
  apply (failure_after_encoding_leaves_the_output Sample.w_empty_source __init__
           ["pics"; "a.JPG"] None 80 false 4 None (Decoded "L" (1, 1)) "division by zero").
  - repeat split; [right; left; reflexivity | left; reflexivity].
  - reflexivity.
  - right. right. exists 26. repeat split; reflexivity.
Defined.



Lemma encoder_called_once_witness :
  encoded (snd (fst (convert_to_webp Sample.w __init__ ["pics"; "a.JPG"] None 80 true 4
                       (Some ["out"])))) =
    [(normalize (Decoded "RGBA" (4, 4)),
      resolved_output_path ["pics"; "a.JPG"] None (Some ["out"]),
      requested_kwargs 80 true 4)].
Proof.
  apply (proj1 (encoder_called_once_on_normalized_image Sample.w __init__ ["pics"; "a.JPG"]
                  None 80 true 4 (Some ["out"]))).
  repeat split; [right; right; reflexivity | right; reflexivity].
Defined.

(** ** Batches, file by file *)

(** What holds of every event of every conversion of a batch, and of the
    skip notices, holds of every event of the loop. *)
Lemma batch_loop_trace_all (P : event -> Prop) w quality lossless method output_folder :
  (forall name, P (Print (skip_notice name))) ->
  forall (files : list Path.t) (self : WebPConverter) (total : Q),
    (forall p self0, In p files ->
        Forall P (snd (fst (convert_to_webp w self0 p None quality lossless method
                              output_folder)))) ->
    Forall P (snd (fst (batch_loop w self files quality lossless method output_folder total))).
Proof.
  intros Hskip. induction files as [|p files IH]; intros self total Hall; [constructor|].
  cbn [batch_loop].
  destruct (String.eqb (Text.lower (Path.suffix p)) ".webp").
  - specialize (IH self total (fun q s Hq => Hall q s (or_intror Hq))).
    destruct (batch_loop w self files quality lossless method output_folder total)
      as [[s' ev] t']. cbn [fst snd] in *. constructor; [apply Hskip | exact IH].
  - pose proof (Hall p self (or_introl eq_refl)) as Hp.
    destruct (convert_to_webp w self p None quality lossless method output_folder)
      as [[s1 ev1] [o t1]]. cbn [fst snd] in Hp.
    specialize (IH s1 (total + t1)%Q (fun q s Hq => Hall q s (or_intror Hq))).
    destruct (batch_loop w s1 files quality lossless method output_folder (total + t1)%Q)
      as [[s2 ev2] t2]. cbn [fst snd] in *. apply Forall_app. now split.
Qed.

Lemma batch_convert_trace_all (P : event -> Prop) w self directory quality lossless method
    recursive output_folder :
  (forall line, P (Print line)) ->
  (forall p self0, In p (_find_image_files w directory recursive) ->
      Forall P (snd (fst (convert_to_webp w self0 p None quality lossless method
                            output_folder)))) ->
  Forall P (snd (fst (batch_convert w self directory quality lossless method recursive
                        output_folder))).
Proof.
  intros Hlines Hall. unfold batch_convert.
  destruct (negb (exists_ (fs w) directory)); [constructor|].
  destruct (_find_image_files w directory recursive) as [|p0 files] eqn:Hfound.
  - constructor; [apply Hlines | constructor].
  - pose proof (batch_loop_trace_all P w quality lossless method output_folder
      (fun name => Hlines _) (p0 :: files) self 0%Q Hall) as Hloop.
    destruct (batch_loop w self (p0 :: files) quality lossless method output_folder 0%Q)
      as [[s' ev] t']. cbn [fst snd] in *.
    constructor; [apply Hlines|]. constructor; [apply Hlines | exact Hloop].
Qed.

Lemma supported_name (p : Path.t) : supported p -> Path.name p <> "".
Proof.
  unfold supported, Path.suffix. intros H Hn. rewrite Hn in H. cbn in H.
  repeat (destruct H as [H|H]; [discriminate|]). exact H.
Qed.

Lemma Forall_encoded (P : event -> Prop) (Q : image * Path.t * save_kwargs -> Prop)
    (ev : list event) :
  (forall im out kw, P (Save im out kw) -> Q (im, out, kw)) ->
  Forall P ev -> Forall Q (encoded ev).
Proof.
  intros HPQ. induction 1 as [|e ev He _ IH]; cbn; [constructor|].
  destruct e; cbn; try exact IH. constructor; [now apply HPQ | exact IH].
Qed.

Lemma encoded_Forall (Q : image * Path.t * save_kwargs -> Prop) (ev : list event) :
  Forall Q (encoded ev) ->
  Forall (fun e => match e with Save im out kw => Q (im, out, kw) | _ => True end) ev.
Proof.
  induction ev as [|e ev IH]; cbn; [constructor|].
  destruct e; cbn; intros H; try (constructor; [exact I | now apply IH]).
  apply Forall_cons_iff in H. destruct H as [H1 H2]. constructor; [exact H1 | now apply IH].
Qed.


Lemma batch_convert_targets w self directory quality lossless method recursive output_folder :
  Forall (batch_target_ok (_find_image_files w directory recursive) output_folder)
    (encoded (snd (fst (batch_convert w self directory quality lossless method recursive
                          output_folder)))).
Proof.
  set (found := _find_image_files w directory recursive).
  apply (Forall_encoded
           (fun e => match e with
                     | Save im out kw => batch_target_ok found output_folder (im, out, kw)
                     | _ => True
                     end)); [auto|].
  apply batch_convert_trace_all; [intros line; exact I|].
  intros p self0 Hin. fold found in Hin.
  assert (Hname : Path.name p <> "").
  { apply supported_name. pose proof (found_supported w directory recursive) as Hs.
    rewrite Forall_forall in Hs. now apply Hs. }
  pose proof (derived_targets w self0 p quality lossless method output_folder Hname) as Ht.
  apply encoded_Forall in Ht. eapply Forall_impl; [|exact Ht].
  intros [] H; try exact I. cbn in H. destruct H as (Hpar & Hn & _ & Hsuf).
  exists p. cbn [fst snd]. now repeat split.
Qed.

Lemma main_directory_encoded (w : world) (a : argv) (ns : namespace) self' ev n total :
  main w a =
    {| exit_code := 0;
       events :=
         (banner ++ verbose_lines ns ++ output_warning (ns_output ns) ++ ev ++
          summary_lines n total (failed_count self'))%list;
       converter := Some self' |} ->
  encoded (events (main w a)) = encoded ev /\ made (events (main w a)) = made ev.
Proof.
  intros ->. cbn [events]. rewrite !encoded_app, !made_app.
  rewrite (only_prints_encoded _ only_prints_banner),
    (only_prints_encoded _ (only_prints_verbose_lines ns)),
    (only_prints_encoded _ (only_prints_output_warning _)),
    (only_prints_encoded _ (only_prints_summary_lines _ _ _)),
    (only_prints_made _ only_prints_banner),
    (only_prints_made _ (only_prints_verbose_lines ns)),
    (only_prints_made _ (only_prints_output_warning _)),
    (only_prints_made _ (only_prints_summary_lines _ _ _)).
  cbn [app]. now rewrite !app_nil_r.
Qed.

(** X9. In a batch every encoder call targets [<stem>.webp] of a
    discovered file, in the output folder or beside that file, whatever
    else was asked; and [main] on a directory with [-o] prints the warning
    and makes the same calls, never using the explicit path as such. *)
Theorem batch_outputs_are_derived :
  (forall w self directory quality lossless method recursive output_folder,
      Forall (batch_target_ok (_find_image_files w directory recursive) output_folder)
        (encoded (snd (fst (batch_convert w self directory quality lossless method
                              recursive output_folder))))) /\
  (forall w a ns o,
      parse_args a = Some ns ->
      is_dir (fs w) (ns_input ns) = true ->
      ns_output ns = Some o ->
      In (Print "Warning: Output path is ignored when processing directories")
        (events (main w a)) /\
      Forall (batch_target_ok (_find_image_files w (ns_input ns) (ns_recursive ns))
                (ns_output_folder ns))
        (encoded (events (main w a)))).
Proof.
  split; [intros; apply batch_convert_targets|].
  intros w a ns o Hparse Hdir Hout.
  destruct (main_directory w a ns Hparse Hdir) as (self' & ev & n & total & Hb & Hm).
  destruct (main_directory_encoded w a ns self' ev n total Hm) as [He _].
  split.
  - rewrite Hm. cbn [events]. rewrite Hout. cbn [output_warning].
    apply in_or_app. right. apply in_or_app. right. now left.
  - rewrite He.
    pose proof (batch_convert_targets w __init__ (ns_input ns) (ns_quality ns) (ns_lossless ns)
      (ns_method ns) (ns_recursive ns) (ns_output_folder ns)) as Ht.
    now rewrite Hb in Ht.
Qed.

Lemma batch_outputs_witness :
  In (Print "Warning: Output path is ignored when processing directories")
    (events (main Sample.w Sample.argv_pics_output)) /\
  Forall (batch_target_ok (_find_image_files Sample.w ["pics"] true) None)
    (encoded (events (main Sample.w Sample.argv_pics_output))).
Proof.
  pose proof (fun ns H => proj2 batch_outputs_are_derived Sample.w Sample.argv_pics_output ns
                            ["out.webp"] H) as H.
  exact (H _ eq_refl eq_refl eq_refl).
Defined.

(** X10. [batch_convert] on a path that does not exist raises
    "Directory does not exist", leaving the converter and the output
    untouched. On an existing path that is not a directory, and on a
    directory (of a file system without repeated names) where no regular
    file in scope has a supported extension, it prints "No supported image
    files found.", returns (0, 0.0), and leaves the converter untouched. *)
Theorem batch_convert_without_files
    (w : world) (self : WebPConverter) (directory : Path.t) (quality : Z)
    (lossless : bool) (method : Z) (recursive : bool) (output_folder : option Path.t) :
  let out := batch_convert w self directory quality lossless method recursive output_folder in
  (exists_ (fs w) directory = false ->
   out = (self, [], Raise ("Directory does not exist: " ++ Path.str directory))) /\
  (exists_ (fs w) directory = true -> is_dir (fs w) directory = false ->
   out = (self, [Print "No supported image files found."], Ok (0, 0%Q))) /\
  (well_formed (fs w) = true -> exists_ (fs w) directory = true ->
   (forall p, in_scope recursive directory p -> is_file (fs w) p = true -> ~ supported p) ->
   out = (self, [Print "No supported image files found."], Ok (0, 0%Q))).
Proof.
  intros out. subst out. unfold batch_convert. split; [|split].
  - intros ->. reflexivity.
  - intros -> Hnd. cbn [negb].
    assert (Hf : _find_image_files w directory recursive = []).
    { unfold _find_image_files, glob. unfold is_dir in Hnd.
      destruct (lookup (fs w) directory) as [[| |]|]; try reflexivity. discriminate. }
    now rewrite Hf.
  - intros Hwf -> Hnone. cbn [negb].
    assert (Hf : _find_image_files w directory recursive = []).
    { destruct (_find_image_files w directory recursive) as [|p l] eqn:E; [reflexivity|].
      exfalso. assert (Hin : In p (_find_image_files w directory recursive))
        by (rewrite E; now left).
      unfold _find_image_files in Hin.
      apply sorted_In, filter_In in Hin. destruct Hin as [Hg Hc].
      apply (glob_In _ _ _ recursive Hwf) in Hg. destruct Hg as (_ & Hs & _).
      apply andb_true_iff in Hc. destruct Hc as [Hfile Hsup].
      apply mem_In in Hsup. exact (Hnone p Hs Hfile Hsup). }
    now rewrite Hf.
Qed.

Lemma batch_convert_without_files_witness :
  batch_convert Sample.w __init__ ["pics"; "notes.txt"] 80 false 4 false None =
    (__init__, [Print "No supported image files found."], Ok (0, 0%Q)) /\
  batch_convert Sample.w __init__ ["missing"] 80 false 4 false None =
    (__init__, [], Raise ("Directory does not exist: " ++ Path.str ["missing"])).
Proof.
  split.
  - apply (proj1 (proj2 (batch_convert_without_files Sample.w __init__ ["pics"; "notes.txt"]
                           80 false 4 false None))); reflexivity.
  - apply (proj1 (batch_convert_without_files Sample.w __init__ ["missing"]
                    80 false 4 false None)); reflexivity.
Defined.

(** ** The summary of [main] *)











(** ** Exit statuses *)






(** ** Discovery, with and without recursion *)

Lemma find_image_files_In w directory recursive p :
  well_formed (fs w) = true ->
  (In p (_find_image_files w directory recursive) <->
   is_dir (fs w) directory = true /\ in_scope recursive directory p /\
   is_file (fs w) p = true /\ supported p).
Proof.
  intros Hwf. unfold _find_image_files.
  rewrite sorted_In, filter_In, (glob_In _ _ _ recursive Hwf), andb_true_iff, mem_In.
  unfold supported, is_file, exists_.
  destruct (lookup (fs w) p) as [[| |]|]; intuition congruence.
Qed.

(** X3. On a file system without repeated names, the files discovered
    without recursion are exactly the files discovered with recursion that
    lie directly in the directory: recursion only adds files of nested
    directories. *)
Theorem recursion_only_adds_deeper_files (w : world) (directory p : Path.t) :
  well_formed (fs w) = true ->
  (In p (_find_image_files w directory false) <->
   In p (_find_image_files w directory true) /\
   List.length p = S (List.length directory)).
Proof.
  intros Hwf. rewrite !find_image_files_In by exact Hwf. unfold in_scope. split.
  - intros (Hd & (c & ->) & Hf & Hs). split.
    + repeat split; auto. exists [c]. split; [discriminate | reflexivity].
    + rewrite length_app. cbn. lia.
  - intros ((Hd & (rel & Hne & ->) & Hf & Hs) & Hlen).
    repeat split; auto. rewrite length_app in Hlen.
    destruct rel as [|c [|c' rel]]; [congruence | now exists c | cbn in Hlen; lia].
Qed.

Lemma recursion_witness :
  In ["pics"; "a.JPG"] (_find_image_files Sample.w ["pics"] true) /\
  List.length ["pics"; "a.JPG"] = S (List.length ["pics"]).
Proof.
  apply (proj1 (recursion_only_adds_deeper_files Sample.w ["pics"] ["pics"; "a.JPG"] eq_refl)).
  vm_compute. tauto.
Defined.

(** ** Sizes below and above the unit thresholds *)

Lemma round_half_even_Z (z : Z) : Text.round_half_even (inject_Z z) = z.
Proof.
  unfold Text.round_half_even. rewrite Qfloor_Z.
  assert (H : (inject_Z z - inject_Z z ?= 1 # 2)%Q = Lt).
  { apply Qlt_alt. setoid_replace (inject_Z z - inject_Z z)%Q with 0%Q by ring.
    reflexivity. }
  now rewrite H.
Qed.

Lemma round_half_even_comp (x y : Q) : (x == y)%Q ->
  Text.round_half_even x = Text.round_half_even y.
Proof.
  intros H. unfold Text.round_half_even. rewrite (Qfloor_comp _ _ H).
  assert (Hc : (x - inject_Z (Qfloor y) ?= 1 # 2)%Q = (y - inject_Z (Qfloor y) ?= 1 # 2)%Q).
  { apply Qcompare_comp; [now rewrite H | reflexivity]. }
  now rewrite Hc.
Qed.

Lemma format_float_1_Z (z : Z) :
  0 <= z -> Text.format_float 1 (inject_Z z) = Text.str_int z ++ ".0".
Proof.
  intros Hz. unfold Text.format_float. change (10 ^ Z.of_nat 1) with 10.
  assert (Hm : Text.round_half_even (Qabs (inject_Z z) * inject_Z 10) = z * 10).
  { rewrite (round_half_even_comp _ (inject_Z (z * 10))); [apply round_half_even_Z|].
    rewrite Qabs_pos by (change 0%Q with (inject_Z 0); now rewrite <- Zle_Qle).
    now rewrite inject_Z_mult. }
  rewrite Hm, Z.div_mul, Z.mod_mul by lia.
  destruct (Qlt_le_dec (inject_Z z) 0) as [Hneg|_].
  - exfalso. change 0%Q with (inject_Z 0) in Hneg. rewrite <- Zlt_Qlt in Hneg. lia.
  - reflexivity.
Qed.

(** X1. A size below 1024 bytes is shown exactly: its decimal digits,
    then ".0 B". *)
Theorem format_size_below_1024 (n : Z) :
  0 <= n < 1024 -> format_size n = Ok (Text.str_int n ++ ".0 B").
Proof.
  intros Hn. unfold format_size.
  destruct (float_of_int_ok n) as (x & -> & _ & Hx); [unfold Float.max_int; lia|].
  rewrite Hx by lia. cbn [format_size_loop List.length units].
  assert (Hlt : Qle_bool 1024 (inject_Z n) = false).
  { apply not_true_is_false. intros H. apply Qle_bool_iff in H.
    change 1024%Q with (inject_Z 1024) in H. rewrite <- Zle_Qle in H. lia. }
  rewrite Hlt. cbn [andb nth_error].
  rewrite format_float_1_Z by lia. unfold units. cbv iota. now rewrite append_assoc.
Qed.

Lemma format_size_below_1024_witness :
  format_size 1023 = Ok (Text.str_int 1023 ++ ".0 B").
Proof. apply format_size_below_1024. lia. Defined.

Lemma pow1024_Z_succ (k : nat) : pow1024_Z (S k) = 1024 * pow1024_Z k.
Proof. unfold pow1024_Z. rewrite Nat2Z.inj_succ, Z.pow_succ_r by lia. reflexivity. Qed.

Lemma pow1024_Z_pos (k : nat) : 0 < pow1024_Z k.
Proof. unfold pow1024_Z. apply Z.pow_pos_nonneg; lia. Qed.

Lemma pow1024_Z_mono (j k : nat) : (j <= k)%nat -> pow1024_Z j <= pow1024_Z k.
Proof. intros H. unfold pow1024_Z. apply Z.pow_le_mono_r; lia. Qed.

(** The comparisons of the loop, read on the integers. *)
Lemma scaled_ge_1024 (n : Z) (j : nat) :
  (1024 <= inject_Z n / pow1024 j)%Q <-> pow1024_Z (S j) <= n.
Proof.
  pose proof (pow1024_pos j) as Hp. pose proof (pow1024_Z_pos j) as Hz.
  rewrite pow1024_Z_succ.
  assert (Hmul : (inject_Z (1024 * pow1024_Z j) == 1024 * pow1024 j)%Q).
  { rewrite inject_Z_mult. reflexivity. }
  split.
  - intros H. rewrite Zle_Qle, Hmul.
    apply (Qmult_le_compat_r _ _ (pow1024 j)) in H; [|now apply Qlt_le_weak].
    eapply Qle_trans; [exact H|].
    assert (E : (inject_Z n / pow1024 j * pow1024 j == inject_Z n)%Q).
    { field. intro H0. rewrite H0 in Hp. discriminate Hp. }
    rewrite E. apply Qle_refl.
  - intros H. rewrite Zle_Qle, Hmul in H.
    apply Qle_shift_div_l; assumption.
Qed.

Lemma scaled_lt_1024 (n : Z) (j : nat) (v : Q) :
  (v == inject_Z n / pow1024 j)%Q -> (v < 1024)%Q -> n < pow1024_Z (S j).
Proof.
  intros Hv Hlt. destruct (Z.lt_ge_cases n (pow1024_Z (S j))) as [H|H]; [exact H|].
  apply scaled_ge_1024 in H. rewrite <- Hv in H.
  exfalso. exact (Qlt_not_le _ _ Hlt H).
Qed.

(** X2. For sizes below 2^53 the unit is decided by the powers of 1024:
    a size in [1024^k, 1024^(k+1)) is shown in the unit of index [k], and
    every size from 1024^4 on in TB; the number shown is the size divided by
    1024^k, rounded to the nearest tenth. *)
Theorem format_size_unit (n : Z) (k : nat) (u : string) :
  0 <= n < 2 ^ 53 ->
  nth_error units k = Some u ->
  ((0 < k)%nat -> pow1024_Z k <= n) ->
  ((k < 4)%nat -> n < pow1024_Z (S k)) ->
  exists whole frac : Z,
    format_size n = Ok (Text.str_int whole ++ "." ++ Text.str_int frac ++ " " ++ u) /\
    0 <= whole /\ 0 <= frac <= 9 /\
    (inject_Z n / pow1024 k - (1 # 20) <= inject_Z (10 * whole + frac) / 10
       <= inject_Z n / pow1024 k + (1 # 20))%Q.
Proof.
  intros Hn Hu Hlo Hhi.
  assert (Hk : (k < 5)%nat).
  { change 5%nat with (List.length units). apply nth_error_Some. rewrite Hu. discriminate. }
  destruct (float_of_int_ok n) as (x & Hx & Hx0 & Hexact); [unfold Float.max_int; lia|].
  rewrite Hexact in * by lia.
  destruct (format_size_loop_spec (List.length units) (inject_Z n) 0)
    as (v & k' & Hrun & Hk' & Hv & Hall & Hstop); [cbn; lia | lia |].
  cbn [Nat.add] in Hrun, Hk', Hstop.
  assert (Heq : k' = k).
  { destruct (Nat.lt_trichotomy k' k) as [Hlt|[Heq|Hgt]]; [exfalso | exact Heq | exfalso].
    - pose proof (scaled_lt_1024 n k' v Hv (Hstop ltac:(lia))) as H1.
      pose proof (pow1024_Z_mono (S k') k ltac:(lia)) as H2.
      specialize (Hlo ltac:(lia)). lia.
    - pose proof (proj1 (scaled_ge_1024 n k) (Hall k Hgt)) as H1.
      specialize (Hhi ltac:(lia)). lia. }
  subst k'.
  assert (Hv0 : (0 <= v)%Q).
  { rewrite Hv. apply Qle_shift_div_l; [apply pow1024_pos|].
    rewrite Qmult_0_l. change 0%Q with (inject_Z 0). rewrite <- Zle_Qle. lia. }
  destruct (format_float_1_nonneg v Hv0) as (whole & frac & Hfmt & Hw & Hf & _ & Hnear).
  exists whole, frac. split; [|split; [exact Hw|split; [exact Hf|]]].
  - unfold format_size. rewrite Hx, Hrun, Hu, Hfmt. now rewrite append_assoc.
  - rewrite <- Hv. exact Hnear.
Qed.

Lemma format_size_unit_witness :
  exists whole frac : Z,
    format_size 5000000 = Ok (Text.str_int whole ++ "." ++ Text.str_int frac ++ " " ++ "MB") /\
    0 <= whole /\ 0 <= frac <= 9 /\
    (inject_Z 5000000 / pow1024 2 - (1 # 20) <= inject_Z (10 * whole + frac) / 10
       <= inject_Z 5000000 / pow1024 2 + (1 # 20))%Q.
Proof.
  apply (format_size_unit 5000000 2 "MB").
  - lia.
  - reflexivity.
  - intros _. vm_compute. discriminate.
  - intros _. vm_compute. reflexivity.
Defined.
